(** * A thread-pool dispatch queue (examples/cpp/dispatch.cpp)

    The class [dispatch_queue] owns a mutex [lock_], a vector of worker
    threads [threads_], a FIFO [q_] of tasks, a condition variable [cv_]
    and a flag [quit_].  Callers enqueue tasks with [dispatch]; every
    worker runs [dispatch_thread_handler]; the destructor raises [quit_]
    and joins the workers.

    The program is concurrent, so it is embedded as a transition system:
    every thread is a small deterministic program over the shared members,
    one statement per step, and a schedule (a list of [action]s) picks
    which thread moves next.  [step] and [run] are executable, so a
    schedule can be evaluated on a concrete pool.

    What the embedding assumes: a read or a write of one member is
    atomic, also the destructor's unlocked store to [quit_]; statements
    executed under [lock_] on members that only lock holders touch are
    grouped into one step; evaluating the wait predicate and blocking is
    one step too (the only unlocked write, the destructor's, sends no
    notification, so it makes no difference whether it falls before or
    after the worker blocks); a call [op()] is one step that does not
    touch the queue; [printf] is left out; [size_t] counts are [nat]. *)

From stdpp Require Import base option list strings.

(** ** Threads and control points *)

(** The threads that touch the object: the workers held in [threads_]
    (by index) and the threads that call [dispatch] (by number). *)
Inductive tid : Type :=
  | Worker (w : nat)
  | Caller (k : nat).

(** The two overloads of [dispatch]: [const fp_t&] and [fp_t&&]. *)
Inductive shape : Type :=
  | ByCopy
  | ByMove.

(** Control point of the thread that owns the object, inside
    [~dispatch_queue]. *)
Inductive dpc : Type :=
  | DLive              (* destructor not entered *)
  | DJoin (i : nat)    (* [quit_] written; top of the for loop at index [i] *)
  | DDead.             (* destructor body returned *)

Section Dispatch.

(** [fp_t] is [std::function<void(void)>]: opaque to the queue. *)
Context {fp_t : Type}.

(** Control point of a worker inside [dispatch_thread_handler]. *)
Inductive wpc : Type :=
  | WStart                 (* line 96: constructing the unique_lock *)
  | WPred                  (* line 100: lock held, about to evaluate the wait predicate *)
  | WBlocked               (* inside cv_.wait: lock released, in the wait set *)
  | WWoken                 (* woken up, about to re-acquire the lock *)
  | WTest                  (* line 105: wait returned, lock held *)
  | WUnlock (op : fp_t)    (* line 111: task popped, lock held *)
  | WRun (op : fp_t)       (* line 113: lock released, about to call op() *)
  | WRelock                (* line 115: op() returned *)
  | WCond                  (* line 117: lock held, about to test !quit_ *)
  | WExit                  (* loop left; the unique_lock is still held *)
  | WDone.                 (* handler returned *)

(** Control point of a caller inside [dispatch].  [sh] records which
    overload runs; [arg] is what is left in the caller's argument object
    once its value has been pushed. *)
Inductive cpc : Type :=
  | CIdle
  | CLock (sh : shape) (op : fp_t)             (* lines 74 / 85 *)
  | CPush (sh : shape) (op : fp_t)             (* lines 75 / 86 *)
  | CUnlock (sh : shape) (arg : option fp_t)   (* lines 79 / 90 *)
  | CNotify (sh : shape) (arg : option fp_t).  (* lines 80 / 91 *)

(** ** The object and its environment *)

(** The members of the class, with the control point of each worker in
    place of the [std::thread] that runs it, followed by the control
    points of the environment's threads.  [cv_] has no contents of its
    own: its wait set is the set of workers at [WBlocked]. *)
Record system : Type := System {
  name_ : string;
  lock_ : option tid;       (* std::mutex: the owner, when locked *)
  threads_ : list wpc;      (* std::vector<std::thread> *)
  q_ : list fp_t;           (* std::queue<fp_t>, front first *)
  quit_ : bool;
  callers : list cpc;       (* threads calling dispatch *)
  owner : dpc               (* thread destroying the object *)
}.

Definition set_lock (l : option tid) (s : system) : system :=
  System (name_ s) l (threads_ s) (q_ s) (quit_ s) (callers s) (owner s).
Definition set_threads (ws : list wpc) (s : system) : system :=
  System (name_ s) (lock_ s) ws (q_ s) (quit_ s) (callers s) (owner s).
Definition set_q (q : list fp_t) (s : system) : system :=
  System (name_ s) (lock_ s) (threads_ s) q (quit_ s) (callers s) (owner s).
Definition set_quit (b : bool) (s : system) : system :=
  System (name_ s) (lock_ s) (threads_ s) (q_ s) b (callers s) (owner s).
Definition set_callers (cs : list cpc) (s : system) : system :=
  System (name_ s) (lock_ s) (threads_ s) (q_ s) (quit_ s) cs (owner s).
Definition set_owner (d : dpc) (s : system) : system :=
  System (name_ s) (lock_ s) (threads_ s) (q_ s) (quit_ s) (callers s) d.

Definition set_thread (w : nat) (pc : wpc) (s : system) : system :=
  set_threads (<[w := pc]> (threads_ s)) s.
Definition set_caller (k : nat) (pc : cpc) (s : system) : system :=
  set_callers (<[k := pc]> (callers s)) s.

(** What a step lets an observer see. *)
Inductive event : Type :=
  | EvCall (k : nat) (op : fp_t)     (* dispatch(op) entered *)
  | EvPush (k : nat) (op : fp_t)     (* q_.push *)
  | EvPop (w : nat) (op : fp_t)      (* q_.front / q_.pop *)
  | EvInvoke (w : nat) (op : fp_t)   (* op() *)
  | EvQuit                           (* quit_ = true *)
  | EvJoin (i : nat).                (* threads_[i].join() returned *)

(** ** Primitives *)

(** [std::mutex::lock]: proceeds only when the mutex is free. *)
Definition acquire (t : tid) (s : system) : option system :=
  match lock_ s with
  | None => Some (set_lock (Some t) s)
  | Some _ => None
  end.

(** [cv_.notify_all()]: every worker in the wait set is woken. *)
Definition wake (pc : wpc) : wpc :=
  match pc with
  | WBlocked => WWoken
  | _ => pc
  end.

Definition notify_all (ws : list wpc) : list wpc := wake <$> ws.

(** The wait predicate of line 101: [q_.size() || quit_]. *)
Definition wait_pred (s : system) : bool :=
  match q_ s with
  | [] => quit_ s
  | _ :: _ => true
  end.

(** ** The constructor *)

(** [dispatch_queue(name, thread_cnt)], lines 40-53.  The constructor
    holds [lock_] while it starts the threads, so when it returns every
    worker is still at line 96.  [ncallers] is the number of threads of
    the environment that will call [dispatch].  The [printf] calls of the
    constructor (lines 45-46) and of the destructor (lines 59, 66) write
    to standard output only; that output is not part of the model, and [name_], which
    the code reads nowhere else, is carried along unused. *)
Definition dispatch_queue (name : string) (thread_cnt ncallers : nat) : system :=
  {| name_ := name;
     lock_ := None;
     threads_ := replicate thread_cnt WStart;
     q_ := [];
     quit_ := false;
     callers := replicate ncallers CIdle;
     owner := DLive |}.

(** ** The worker: [dispatch_thread_handler], lines 94-118 *)

Definition dispatch_thread_handler (w : nat) (pc : wpc) (s : system)
  : option (system * list event) :=
  match pc with
  | WStart =>
      s' ← acquire (Worker w) s; Some (set_thread w WPred s', [])
  | WPred =>
      if wait_pred s
      then Some (set_thread w WTest s, [])
      else Some (set_thread w WBlocked (set_lock None s), [])
  | WBlocked => None
  | WWoken =>
      s' ← acquire (Worker w) s; Some (set_thread w WPred s', [])
  | WTest =>
      match q_ s with
      | [] => Some (set_thread w WCond s, [])
      | op :: rest => Some (set_thread w (WUnlock op) (set_q rest s), [EvPop w op])
      end
  | WUnlock op => Some (set_thread w (WRun op) (set_lock None s), [])
  | WRun op => Some (set_thread w WRelock s, [EvInvoke w op])
  | WRelock =>
      s' ← acquire (Worker w) s; Some (set_thread w WCond s', [])
  | WCond =>
      Some (set_thread w (if quit_ s then WExit else WPred) s, [])
  | WExit => Some (set_thread w WDone (set_lock None s), [])
  | WDone => None
  end.

(** ** The callers: the two overloads of [dispatch] *)

(** [dispatch(const fp_t& op)], lines 72-81: [q_.push(op)] copies, the
    caller's object keeps its value. *)
Definition dispatch_copy (k : nat) (pc : cpc) (s : system)
  : option (system * list event) :=
  match pc with
  | CLock _ op =>
      s' ← acquire (Caller k) s; Some (set_caller k (CPush ByCopy op) s', [])
  | CPush _ op =>
      Some (set_caller k (CUnlock ByCopy (Some op)) (set_q (q_ s ++ [op]) s),
            [EvPush k op])
  | CUnlock _ arg => Some (set_caller k (CNotify ByCopy arg) (set_lock None s), [])
  | CNotify _ arg =>
      Some (set_caller k CIdle (set_threads (notify_all (threads_ s)) s), [])
  | CIdle => None
  end.

(** [dispatch(fp_t&& op)], lines 83-92: [q_.push(std::move(op))] moves,
    the caller's object is left without its value. *)
Definition dispatch_move (k : nat) (pc : cpc) (s : system)
  : option (system * list event) :=
  match pc with
  | CLock _ op =>
      s' ← acquire (Caller k) s; Some (set_caller k (CPush ByMove op) s', [])
  | CPush _ op =>
      Some (set_caller k (CUnlock ByMove None) (set_q (q_ s ++ [op]) s),
            [EvPush k op])
  | CUnlock _ arg => Some (set_caller k (CNotify ByMove arg) (set_lock None s), [])
  | CNotify _ arg =>
      Some (set_caller k CIdle (set_threads (notify_all (threads_ s)) s), [])
  | CIdle => None
  end.

Definition shape_of (pc : cpc) : option shape :=
  match pc with
  | CIdle => None
  | CLock sh _ | CPush sh _ | CUnlock sh _ | CNotify sh _ => Some sh
  end.

Definition dispatch (k : nat) (pc : cpc) (s : system)
  : option (system * list event) :=
  match shape_of pc with
  | Some ByCopy => dispatch_copy k pc s
  | Some ByMove => dispatch_move k pc s
  | None => None
  end.

(** ** The destructor: [~dispatch_queue], lines 55-70 *)

(** Line 58, the first statement: a plain store to [quit_]. *)
Definition destroy_begin (s : system) : option (system * list event) :=
  match owner s with
  | DLive => Some (set_owner (DJoin 0) (set_quit true s), [EvQuit])
  | _ => None
  end.

(** Lines 62-69: the join loop.  Every thread of [threads_] was started
    by the constructor and is joined at most once, so [joinable()] holds
    whenever it is tested; [join] returns once the handler has returned. *)
Definition destroy_step (s : system) : option (system * list event) :=
  match owner s with
  | DJoin i =>
      match threads_ s !! i with
      | None => Some (set_owner DDead s, [])
      | Some WDone => Some (set_owner (DJoin (S i)) s, [EvJoin i])
      | Some _ => None
      end
  | _ => None
  end.

(** ** Schedules *)

Inductive action : Type :=
  | Call (k : nat) (sh : shape) (op : fp_t)  (* caller [k] enters dispatch(op) *)
  | StepC (k : nat)       (* caller [k] executes its next statement *)
  | StepW (w : nat)       (* worker [w] executes its next statement *)
  | Spurious (w : nat)    (* cv_ wakes worker [w] without a notification *)
  | Destroy               (* the owner enters the destructor *)
  | StepD.                (* the owner executes its next statement *)

Definition step (a : action) (s : system) : option (system * list event) :=
  match a with
  | Call k sh op =>
      match callers s !! k with
      | Some CIdle => Some (set_caller k (CLock sh op) s, [EvCall k op])
      | _ => None
      end
  | StepC k => pc ← callers s !! k; dispatch k pc s
  | StepW w => pc ← threads_ s !! w; dispatch_thread_handler w pc s
  | Spurious w =>
      match threads_ s !! w with
      | Some WBlocked => Some (set_thread w WWoken s, [])
      | _ => None
      end
  | Destroy => destroy_begin s
  | StepD => destroy_step s
  end.

Fixpoint run (acts : list action) (s : system) : option (system * list event) :=
  match acts with
  | [] => Some (s, [])
  | a :: acts' =>
      match step a s with
      | Some (s1, e1) =>
          match run acts' s1 with
          | Some (s2, e2) => Some (s2, e1 ++ e2)
          | None => None
          end
      | None => None
      end
  end.

(** A whole call of [dispatch] by caller [k], when nothing interleaves. *)
Definition submit (k : nat) (sh : shape) (op : fp_t) : list action :=
  [Call k sh op; StepC k; StepC k; StepC k; StepC k].

(** ** Observations on a run *)

Definition calls (evs : list event) : list fp_t :=
  flat_map (λ e, match e with EvCall _ op => [op] | _ => [] end) evs.
Definition pushes (evs : list event) : list fp_t :=
  flat_map (λ e, match e with EvPush _ op => [op] | _ => [] end) evs.
Definition pops (evs : list event) : list fp_t :=
  flat_map (λ e, match e with EvPop _ op => [op] | _ => [] end) evs.
Definition invokes (evs : list event) : list fp_t :=
  flat_map (λ e, match e with EvInvoke _ op => [op] | _ => [] end) evs.

(** The task a worker holds between popping it and calling it. *)
Definition held (pc : wpc) : list fp_t :=
  match pc with
  | WUnlock op | WRun op => [op]
  | _ => []
  end.
Definition inflight (ws : list wpc) : list fp_t := flat_map held ws.

(** The task a caller has passed to [dispatch] and not pushed yet. *)
Definition unpushed (pc : cpc) : list fp_t :=
  match pc with
  | CLock _ op | CPush _ op => [op]
  | _ => []
  end.
Definition pending (cs : list cpc) : list fp_t := flat_map unpushed cs.

(** Control points at which a thread owns [lock_]. *)
Definition holds_w (pc : wpc) : bool :=
  match pc with
  | WPred | WTest | WUnlock _ | WCond | WExit => true
  | _ => false
  end.
Definition holds_c (pc : cpc) : bool :=
  match pc with
  | CPush _ _ | CUnlock _ _ => true
  | _ => false
  end.

(** Events before and after the destructor's store to [quit_]. *)
Fixpoint before_quit (evs : list event) : list event :=
  match evs with
  | [] => []
  | EvQuit :: _ => []
  | e :: rest => e :: before_quit rest
  end.

Fixpoint after_quit (evs : list event) : list event :=
  match evs with
  | [] => []
  | EvQuit :: rest => rest
  | _ :: rest => after_quit rest
  end.

Fixpoint has_quit (evs : list event) : bool :=
  match evs with
  | [] => false
  | EvQuit :: _ => true
  | _ :: rest => has_quit rest
  end.

(** A worker at one of these control points has not popped a task in the
    current iteration of its loop. *)
Definition can_pop (pc : wpc) : nat :=
  match pc with
  | WStart | WPred | WBlocked | WWoken | WTest => 1
  | _ => 0
  end.

Definition budget (ws : list wpc) : nat := sum_list (can_pop <$> ws).

(** ** The states a call of [dispatch] goes through *)

(** What the caller's argument object holds after the push. *)
Definition residue (sh : shape) (op : fp_t) : option fp_t :=
  match sh with
  | ByCopy => Some op
  | ByMove => None
  end.

Definition locked (k : nat) (sh : shape) (op : fp_t) (s : system) : system :=
  set_caller k (CPush sh op) (set_lock (Some (Caller k)) s).
Definition pushed (k : nat) (sh : shape) (op : fp_t) (s : system) : system :=
  set_caller k (CUnlock sh (residue sh op))
    (set_q (q_ s ++ [op]) (locked k sh op s)).
Definition unlocked (k : nat) (sh : shape) (op : fp_t) (s : system) : system :=
  set_caller k (CNotify sh (residue sh op)) (set_lock None (pushed k sh op s)).
Definition notified (k : nat) (sh : shape) (op : fp_t) (s : system) : system :=
  set_caller k CIdle
    (set_threads (notify_all (threads_ s)) (unlocked k sh op s)).

(** The actions that execute a statement of [dispatch]. *)
Definition by_caller (a : action) : bool :=
  match a with
  | Call _ _ _ | StepC _ => true
  | _ => false
  end.

(** ** Comparing the two overloads *)

(** [forget] erases what tells the overloads apart: the shape of each
    call in progress and the contents of the caller's argument object.
    Every member of the class is kept. *)
Definition forget_pc (pc : cpc) : cpc :=
  match pc with
  | CIdle => CIdle
  | CLock _ op => CLock ByCopy op
  | CPush _ op => CPush ByCopy op
  | CUnlock _ _ => CUnlock ByCopy None
  | CNotify _ _ => CNotify ByCopy None
  end.

Definition forget (s : system) : system :=
  set_callers (forget_pc <$> callers s) s.

Definition with_shape (sh : shape) (a : action) : action :=
  match a with
  | Call k _ op => Call k sh op
  | _ => a
  end.

Definition same_action (a1 a2 : action) : Prop :=
  with_shape ByCopy a1 = with_shape ByCopy a2.

Definition same_outcome (o1 o2 : option (system * list event)) : Prop :=
  match o1, o2 with
  | Some (s1, e1), Some (s2, e2) => forget s1 = forget s2 ∧ e1 = e2
  | None, None => True
  | _, _ => False
  end.

(** ** Invariants *)

(** A thread at a control point inside a critical section owns [lock_]. *)
Definition lock_inv (s : system) : Prop :=
  (∀ w pc, threads_ s !! w = Some pc → holds_w pc = true →
           lock_ s = Some (Worker w)) ∧
  (∀ k pc, callers s !! k = Some pc → holds_c pc = true →
           lock_ s = Some (Caller k)).

(** [cv_.wait] has returned only if its predicate holds. *)
Definition wait_inv (s : system) : Prop :=
  ∀ w, threads_ s !! w = Some WTest → wait_pred s = true.

(** What the destructor has joined has returned. *)
Definition join_inv (s : system) : Prop :=
  match owner s with
  | DLive => True
  | DJoin i => ∀ j, j < i → threads_ s !! j = Some WDone
  | DDead => ∀ j pc, threads_ s !! j = Some pc → pc = WDone
  end.

(** Once [quit_] is set, the workers that have not popped in their
    current iteration bound the number of pops still to come. *)
Definition quit_inv (s : system) (evs : list event) : Prop :=
  has_quit evs = quit_ s ∧
  (quit_ s = true →
   length (pops (after_quit evs)) + budget (threads_ s) ≤ length (threads_ s)).

Record inv (s : system) (evs : list event) : Prop := Inv {
  inv_lock : lock_inv s;
  inv_wait : wait_inv s;
  inv_join : join_inv s;
  inv_quit : quit_inv s evs;
  inv_fifo : pushes evs = pops evs ++ q_ s;
  inv_cons : pops evs ≡ₚ invokes evs ++ inflight (threads_ s)
}.

(** ** The properties as the specification words them *)

(** Drain before exit: when shutdown has returned, every task that was
    enqueued before shutdown was requested has been executed. *)
Definition drain_before_exit (s0 : system) : Prop :=
  ∀ acts s evs, run acts s0 = Some (s, evs) → owner s = DDead →
    ∀ op, op ∈ pushes (before_quit evs) → op ∈ invokes evs.

(** A worker leaves its loop only in a state where the queue is empty
    and the quit flag is set. *)
Definition exits_only_when_drained (s0 : system) : Prop :=
  ∀ acts s evs w s' e,
    run acts s0 = Some (s, evs) →
    step (StepW w) s = Some (s', e) →
    threads_ s !! w ≠ Some WExit → threads_ s' !! w = Some WExit →
    q_ s = [] ∧ quit_ s = true.

(** Tasks begin execution in the order of the calls. *)
Definition fifo_execution (s0 : system) : Prop :=
  ∀ acts s evs, run acts s0 = Some (s, evs) →
    invokes evs `prefix_of` calls evs.

(** When the pool has been shut down, the executed tasks are the
    enqueued ones, each once. *)
Definition exactly_once (s0 : system) : Prop :=
  ∀ acts s evs, run acts s0 = Some (s, evs) → owner s = DDead →
    invokes evs ≡ₚ pushes evs.

End Dispatch.

Arguments wpc : clear implicits.
Arguments cpc : clear implicits.
Arguments system : clear implicits.
Arguments event : clear implicits.
Arguments action : clear implicits.
Arguments wait_pred : simpl never.

(** ** Sample pools and schedules *)

(** A pool of [n] workers with one calling thread; tasks are numbered. *)
Definition pool (n : nat) : system nat := dispatch_queue "pool" n 1.

(** One pass of worker [w] from the wait to its task: it takes the lock,
    evaluates the predicate, pops, unlocks. *)
Definition fetch (w : nat) : list (action nat) :=
  [StepW w; StepW w; StepW w; StepW w].

(** The rest of the iteration: call the task, take the lock again, test
    [!quit_]; the last step leaves the handler when [quit_] was set. *)
Definition finish (w : nat) : list (action nat) :=
  [StepW w; StepW w; StepW w; StepW w].

(** Two tasks are submitted and shutdown is requested at once; the only
    worker then runs until it returns and the destructor joins it. *)
Definition shutdown_one_worker : list (action nat) :=
  submit 0 ByMove 1 ++ submit 0 ByMove 2 ++ [Destroy] ++
  fetch 0 ++ finish 0 ++ [StepD; StepD].

(** Two tasks are submitted, the worker pops the first, the destructor
    sets [quit_] while it runs; the worker is then at line 117. *)
Definition quit_while_running : list (action nat) :=
  submit 0 ByCopy 1 ++ submit 0 ByCopy 2 ++ fetch 0 ++
  [Destroy; StepW 0; StepW 0].

(** Two workers pop tasks 1 and 2 in that order; the second worker calls
    its task first. *)
Definition overtake : list (action nat) :=
  submit 0 ByMove 1 ++ submit 0 ByMove 2 ++ fetch 0 ++ fetch 1 ++
  [StepW 1; StepW 0].

(** Three tasks, two workers, then shutdown. *)
Definition shutdown_two_workers : list (action nat) :=
  submit 0 ByMove 1 ++ submit 0 ByMove 2 ++ submit 0 ByMove 3 ++
  fetch 0 ++ fetch 1 ++ [Destroy] ++ finish 0 ++ finish 1 ++
  [StepD; StepD; StepD].

(** The only worker reaches the wait and blocks; then the pool is
    destroyed. *)
Definition destroy_idle : list (action nat) := [StepW 0; StepW 0; Destroy].

(** Three calls on a pool without workers. *)
Definition starve : list (action nat) :=
  submit 0 ByCopy 1 ++ submit 0 ByMove 2 ++ submit 0 ByCopy 3.

(** The program's own [main], lines 120-131: four workers, four tasks
    passed as temporaries, then the queue goes out of scope.  In this
    schedule worker 0 runs the four tasks one after the other and is
    back in the wait before [main] reaches the destructor; the other
    workers start after [quit_] is set and leave at once. *)
Definition main_pool : system nat :=
  dispatch_queue "Phillip's Demo Dispatch Queue" 4 1.

Definition again (w : nat) : list (action nat) :=
  [StepW w; StepW w; StepW w; StepW w; StepW w; StepW w].

Definition leave (w : nat) : list (action nat) :=
  [StepW w; StepW w; StepW w; StepW w; StepW w].

Definition main_schedule : list (action nat) :=
  submit 0 ByMove 1 ++ submit 0 ByMove 2 ++ submit 0 ByMove 3 ++
  submit 0 ByMove 4 ++
  fetch 0 ++ again 0 ++ again 0 ++ again 0 ++
  [StepW 0; StepW 0; StepW 0; StepW 0] ++
  [Destroy] ++ leave 1 ++ leave 2 ++ leave 3.

Definition main_stuck : system nat :=
  {| name_ := "Phillip's Demo Dispatch Queue"; lock_ := None;
     threads_ := [WBlocked; WDone; WDone; WDone]; q_ := []; quit_ := true;
     callers := [CIdle]; owner := DJoin 0 |}.

(** The states these schedules end in. *)
Definition pool_state (l : option tid) (ws : list (wpc nat)) (q : list nat)
    (b : bool) (d : dpc) : system nat :=
  {| name_ := "pool"; lock_ := l; threads_ := ws; q_ := q; quit_ := b;
     callers := [CIdle]; owner := d |}.

(** ** Further notions, for the properties beyond the claims *)

Section Environment.
Context {fp_t : Type}.
Implicit Types (s : system fp_t) (evs : list (event fp_t))
  (ws : list (wpc fp_t)) (cs : list (cpc fp_t)).

(** The thread [t] is at a control point inside a critical section. *)
Definition in_critical_section s (t : tid) : Prop :=
  match t with
  | Worker w => ∃ pc, threads_ s !! w = Some pc ∧ holds_w pc = true
  | Caller k => ∃ pc, callers s !! k = Some pc ∧ holds_c pc = true
  end.

(** Whoever is recorded as the owner of [lock_] is inside a critical
    section (the converse of [lock_inv]). *)
Definition owner_inv s : Prop :=
  match lock_ s with
  | None => True
  | Some t => in_critical_section s t
  end.

(** The action by which thread [t] executes its next statement. *)
Definition thread_step (t : tid) : action fp_t :=
  match t with
  | Worker w => StepW w
  | Caller k => StepC k
  end.

(** A caller that has pushed and has not yet called [notify_all]
    (lines 79-80 / 90-91), and one that is about to call it. *)
Definition will_notify (pc : cpc fp_t) : bool :=
  match pc with
  | CUnlock _ _ | CNotify _ _ => true
  | _ => false
  end.

Definition notifying (pc : cpc fp_t) : bool :=
  match pc with
  | CNotify _ _ => true
  | _ => false
  end.

(** No wake-up is lost on a push: a worker is in the wait set with a
    non-empty queue only while the pusher's notification is pending. *)
Definition wakeup_inv s : Prop :=
  ∀ w, threads_ s !! w = Some WBlocked → q_ s ≠ [] →
       ∃ k pc, callers s !! k = Some pc ∧ will_notify pc = true.

(** Number of stores to [quit_] in a run. *)
Fixpoint quit_count evs : nat :=
  match evs with
  | [] => 0
  | EvQuit :: rest => S (quit_count rest)
  | _ :: rest => quit_count rest
  end.

Definition quit_once_inv s evs : Prop :=
  (quit_ s = false ↔ owner s = DLive) ∧
  quit_count evs = (if quit_ s then 1 else 0).

(** The indices of the threads joined, in the order of the joins. *)
Definition joins evs : list nat :=
  flat_map (λ ev, match ev with EvJoin i => [i] | _ => [] end) evs.

Definition join_order_inv s evs : Prop :=
  match owner s with
  | DLive => joins evs = []
  | DJoin i => i ≤ length (threads_ s) ∧ joins evs = seq 0 i
  | DDead => joins evs = seq 0 (length (threads_ s))
  end.

(** Every handler has returned. *)
Definition all_done ws : Prop := ∀ w pc, ws !! w = Some pc → pc = @WDone fp_t.

(** As long as [quit_] is not set, or no task was pushed after it was
    set and the queue is not empty, every worker that is past line 105
    in its current iteration came there by a pop. *)
Definition popped_inv s evs : Prop :=
  (quit_ s = false ∨ (pushes (after_quit evs) = [] ∧ q_ s ≠ [])) →
  length (threads_ s) ≤ length (pops evs) + budget (threads_ s).

(** The calls and the pushes of caller [k], and the task it has passed
    to [dispatch] and not pushed yet. *)
Definition calls_by (k : nat) evs : list fp_t :=
  flat_map (λ ev, match ev with
                  | EvCall k' op => if decide (k' = k) then [op] else []
                  | _ => []
                  end) evs.
Definition pushes_by (k : nat) evs : list fp_t :=
  flat_map (λ ev, match ev with
                  | EvPush k' op => if decide (k' = k) then [op] else []
                  | _ => []
                  end) evs.
Definition unpushed_at cs (k : nat) : list fp_t :=
  match cs !! k with
  | Some pc => unpushed pc
  | None => []
  end.

(** The actions of the workers and of the destructor: no call of
    [dispatch] is made or continued and the wait does not wake up
    spuriously. *)
Definition quiet (a : action fp_t) : bool :=
  match a with
  | StepW _ | Destroy | StepD => true
  | _ => false
  end.

(** *** The environment's threads on their own

    The callers and the owner execute [dispatch] and the destructor;
    [env_step] is what these statements do to the control points of
    these threads alone, in a pool of [n] workers, whenever the pool
    lets them proceed: the lock and the workers are left out. *)
Definition by_main (a : action fp_t) : bool :=
  match a with
  | StepW _ | Spurious _ => false
  | _ => true
  end.

Definition seen_by_main (ev : event fp_t) : bool :=
  match ev with
  | EvPop _ _ | EvInvoke _ _ => false
  | _ => true
  end.

Definition main_events evs : list (event fp_t) :=
  List.filter seen_by_main evs.

Definition env_step (n : nat) (a : action fp_t) (st : list (cpc fp_t) * dpc)
  : option ((list (cpc fp_t) * dpc) * list (event fp_t)) :=
  let '(cs, d) := st in
  match a with
  | Call k sh op =>
      match cs !! k with
      | Some CIdle => Some ((<[k := CLock sh op]> cs, d), [EvCall k op])
      | _ => None
      end
  | StepC k =>
      match cs !! k with
      | Some (CLock sh op) => Some ((<[k := CPush sh op]> cs, d), [])
      | Some (CPush sh op) =>
          Some ((<[k := CUnlock sh (residue sh op)]> cs, d), [EvPush k op])
      | Some (CUnlock sh arg) => Some ((<[k := CNotify sh arg]> cs, d), [])
      | Some (CNotify sh arg) => Some ((<[k := CIdle]> cs, d), [])
      | _ => None
      end
  | Destroy =>
      match d with
      | DLive => Some ((cs, DJoin 0), [EvQuit])
      | _ => None
      end
  | StepD =>
      match d with
      | DJoin i =>
          if decide (i < n) then Some ((cs, DJoin (S i)), [EvJoin i])
          else Some ((cs, DDead), [])
      | _ => None
      end
  | _ => None
  end.

Fixpoint env_run (n : nat) (acts : list (action fp_t))
    (st : list (cpc fp_t) * dpc)
  : option ((list (cpc fp_t) * dpc) * list (event fp_t)) :=
  match acts with
  | [] => Some (st, [])
  | a :: acts' =>
      match env_step n a st with
      | Some (st1, e1) =>
          match env_run n acts' st1 with
          | Some (st2, e2) => Some (st2, e1 ++ e2)
          | None => None
          end
      | None => None
      end
  end.

End Environment.

(** [main], lines 120-131, as the program of its thread: the constructor
    has built [main_pool]; four temporaries are passed to
    [dispatch(fp_t&&)]; at [return] the destructor stores [quit_], joins
    the four workers and leaves its loop. *)
Definition main_program : list (action nat) :=
  submit 0 ByMove 1 ++ submit 0 ByMove 2 ++ submit 0 ByMove 3 ++
  submit 0 ByMove 4 ++ [Destroy; StepD; StepD; StepD; StepD; StepD].

(** A complete run of [main]: every worker takes one task after [quit_]
    is set. *)
Definition main_complete : list (action nat) :=
  submit 0 ByMove 1 ++ submit 0 ByMove 2 ++ submit 0 ByMove 3 ++
  submit 0 ByMove 4 ++ [Destroy] ++
  fetch 0 ++ finish 0 ++ fetch 1 ++ finish 1 ++ fetch 2 ++ finish 2 ++
  fetch 3 ++ finish 3 ++ [StepD; StepD; StepD; StepD; StepD].

(** One task on one worker, shut down at once and run to the end. *)
Definition shutdown_one_task : list (action nat) :=
  submit 0 ByMove 1 ++ [Destroy] ++ fetch 0 ++ finish 0 ++ [StepD; StepD].

(** The worker waits; a caller has pushed and still holds the lock. *)
Definition push_to_idle : list (action nat) :=
  [StepW 0; StepW 0; Call 0 ByMove 1; StepC 0; StepC 0].

(** A task is queued and the worker has come out of the wait. *)
Definition woken_with_task : list (action nat) :=
  submit 0 ByMove 1 ++ [StepW 0; StepW 0].


(** * Runs *)

Section Runs.
Context {fp_t : Type}.
Implicit Types (s : system fp_t) (evs e : list (event fp_t))
  (a : action fp_t) (acts : list (action fp_t)).

(** Induction along a run: a property of the start that every step
    preserves holds at the end. *)
Lemma run_invariant (P : system fp_t → list (event fp_t) → Prop) :
  (∀ s evs a s' e, P s evs → step a s = Some (s', e) → P s' (evs ++ e)) →
  ∀ acts s0 evs0 s evs,
    P s0 evs0 → run acts s0 = Some (s, evs) → P s (evs0 ++ evs).
Proof.
  intros Hstep acts. induction acts as [|a acts IH]; intros s0 evs0 s evs H0 Hrun.
  - simpl in Hrun. injection Hrun as <- <-. by rewrite (right_id_L [] (++)).
  - simpl in Hrun.
    destruct (step a s0) as [[s1 e1]|] eqn:Hs; [|discriminate].
    destruct (run acts s1) as [[s2 e2]|] eqn:Hr; [|discriminate].
    injection Hrun as <- <-.
    rewrite (assoc_L (++)). eapply IH; [|exact Hr]. eauto.
Qed.

Lemma run_invariant_init (P : system fp_t → list (event fp_t) → Prop) s0 :
  P s0 [] →
  (∀ s evs a s' e, P s evs → step a s = Some (s', e) → P s' (evs ++ e)) →
  ∀ acts s evs, run acts s0 = Some (s, evs) → P s evs.
Proof.
  intros H0 Hstep acts s evs Hrun.
  change evs with ([] ++ evs). by eapply (run_invariant P Hstep).
Qed.

End Runs.

(** * Invariants of the transition system *)

(** Case analysis on a step that was taken: one goal per statement of
    the program, with the successor state written out. *)
Ltac step_unfold H :=
  simpl in H;
  unfold dispatch, dispatch_copy, dispatch_move, dispatch_thread_handler,
    destroy_begin, destroy_step, acquire in H;
  repeat (simplify_option_eq; try case_match).

Ltac step_inv H :=
  match type of H with
  | step ?a ?s = Some _ => destruct a; step_unfold H
  end.

Section Invariants.
Context {fp_t : Type}.
Implicit Types (s : system fp_t) (evs e : list (event fp_t))
  (a : action fp_t) (acts : list (action fp_t))
  (ws : list (wpc fp_t)) (cs : list (cpc fp_t)).

Lemma calls_app evs e : calls (evs ++ e) = calls evs ++ calls e.
Proof. apply flat_map_app. Qed.
Lemma pushes_app evs e : pushes (evs ++ e) = pushes evs ++ pushes e.
Proof. apply flat_map_app. Qed.
Lemma pops_app evs e : pops (evs ++ e) = pops evs ++ pops e.
Proof. apply flat_map_app. Qed.
Lemma invokes_app evs e : invokes (evs ++ e) = invokes evs ++ invokes e.
Proof. apply flat_map_app. Qed.

(** *** [notify_all] only moves workers out of the wait set *)

Lemma lookup_notify_all ws w pc :
  notify_all ws !! w = Some pc → ∃ pc0, ws !! w = Some pc0 ∧ pc = wake pc0.
Proof.
  unfold notify_all. rewrite list_lookup_fmap.
  destruct (ws !! w) as [pc0|]; simpl; [|done]. intros [= <-]. eauto.
Qed.

Lemma holds_w_wake (pc : wpc fp_t) : holds_w (wake pc) = holds_w pc.
Proof. by destruct pc. Qed.

Lemma held_wake (pc : wpc fp_t) : held (wake pc) = held pc.
Proof. by destruct pc. Qed.

Lemma inflight_notify_all ws : inflight (notify_all ws) = inflight ws.
Proof.
  unfold inflight, notify_all.
  induction ws as [|pc ws IH]; [done|].
  rewrite fmap_cons. simpl. rewrite held_wake. by f_equal.
Qed.

Lemma length_notify_all ws : length (notify_all ws) = length ws.
Proof. apply length_fmap. Qed.

(** Replacing the control point of one worker changes what is in flight
    by that worker's task only. *)
Lemma inflight_insert ws w pc pc' :
  ws !! w = Some pc →
  inflight (<[w := pc']> ws) ++ held pc ≡ₚ inflight ws ++ held pc'.
Proof.
  unfold inflight. revert w.
  induction ws as [|x ws IH]; intros [|w] Hl; simplify_eq/=.
  - rewrite <- (assoc (++) (held pc')), (Permutation_app_comm (held pc')).
    apply Permutation_app_tail, Permutation_app_comm.
  - rewrite <- !(assoc (++)). apply Permutation_app_head, IH, Hl.
Qed.

(** *** Mutual exclusion *)

Ltac lookups :=
  repeat match goal with
  | H : <[_ := _]> _ !! _ = Some _ |- _ =>
      apply list_lookup_insert_Some in H as [(? & ? & ?) | (? & ?)]
  | H : notify_all _ !! _ = Some _ |- _ =>
      apply lookup_notify_all in H as (? & ? & ?)
  end; simplify_eq.

Ltac use_lock_inv Hw Hc :=
  repeat match goal with
  | H : threads_ _ !! _ = Some ?pc, Hh : holds_w ?pc = true |- _ =>
      pose proof (Hw _ _ H Hh); clear Hh
  | H : callers _ !! _ = Some ?pc, Hh : holds_c ?pc = true |- _ =>
      pose proof (Hc _ _ H Hh); clear Hh
  | H : threads_ _ !! _ = Some _ |- _ =>
      pose proof (Hw _ _ H eq_refl); clear H
  | H : callers _ !! _ = Some _ |- _ =>
      pose proof (Hc _ _ H eq_refl); clear H
  end.

Lemma lock_inv_step s a s' e :
  lock_inv s → step a s = Some (s', e) → lock_inv s'.
Proof.
  intros [Hw Hc] Hs.
  step_inv Hs; (split; [intros w' pc' Hl Hh | intros k' pc' Hl Hh]);
    simpl in *; lookups; simpl in *; try done;
    rewrite ?holds_w_wake in *; eauto.
  all: use_lock_inv Hw Hc; congruence.
Qed.

Lemma lock_inv_init name n K : lock_inv (dispatch_queue (fp_t:=fp_t) name n K).
Proof.
  split; simpl; intros i pc [-> _]%lookup_replicate; done.
Qed.

(** *** First in, first out *)

Lemma fifo_step s evs a s' e :
  pushes evs = pops evs ++ q_ s → step a s = Some (s', e) →
  pushes (evs ++ e) = pops (evs ++ e) ++ q_ s'.
Proof.
  intros HI Hs. rewrite pushes_app, pops_app.
  step_inv Hs; simpl; rewrite ?app_nil_r; try done.
  all: try (rewrite HI; by rewrite <- ?(assoc_L (++))).
  congruence.
Qed.

(** *** Every popped task is in flight or has been invoked *)

Lemma conservation_step s evs a s' e :
  pops evs ≡ₚ invokes evs ++ inflight (threads_ s) →
  step a s = Some (s', e) →
  pops (evs ++ e) ≡ₚ invokes (evs ++ e) ++ inflight (threads_ s').
Proof.
  intros HI Hs. rewrite pops_app, invokes_app.
  step_inv Hs; simpl; rewrite ?app_nil_r, ?inflight_notify_all; try done.
  all: match goal with
       | H : threads_ _ !! ?w = Some ?pc |- context [<[?w := ?pc']> _] =>
           pose proof (inflight_insert _ _ _ pc' H) as HP; simpl in HP;
           rewrite ?app_nil_r in HP
       end.
  all: try (by rewrite HP).
  - by rewrite HP, HI, (assoc_L (++)).
  - apply Permutation_app_inv_r in HP. by rewrite HP.
  - rewrite HI, <- HP, <- !(assoc_L (++)).
    apply Permutation_app_head, Permutation_app_comm.
Qed.

(** *** The wait has returned only if its predicate holds *)

Lemma wait_inv_step s a s' e :
  lock_inv s → wait_inv s → step a s = Some (s', e) → wait_inv s'.
Proof.
  intros [Hw Hc] HI Hs w' Hl. unfold wait_inv in *.
  step_inv Hs; simpl in *; lookups; simplify_eq/=; try done;
    unfold wait_pred in *; simpl in *; eauto.
  all: try (by match goal with H : WTest = wake ?pc |- _ => destruct pc; simplify_eq/=; eauto end).
  all: try (by destruct (q_ s); eauto).
  use_lock_inv Hw Hc. simplify_eq.
Qed.

Lemma wait_inv_init name n K : wait_inv (dispatch_queue (fp_t:=fp_t) name n K).
Proof. intros w [? _]%lookup_replicate. done. Qed.

(** *** The size of the pool never changes *)

Lemma length_step s a s' e :
  step a s = Some (s', e) →
  length (threads_ s') = length (threads_ s) ∧
  length (callers s') = length (callers s).
Proof.
  intros Hs.
  step_inv Hs; simpl; rewrite ?length_insert, ?length_notify_all; done.
Qed.

(** *** What the destructor has joined has returned *)

Lemma done_stable s a s' e j :
  step a s = Some (s', e) →
  threads_ s !! j = Some WDone → threads_ s' !! j = Some WDone.
Proof.
  intros Hs Hj.
  step_inv Hs; simpl; try done.
  all: try (unfold notify_all; by rewrite list_lookup_fmap, Hj).
  all: destruct (decide (w = j)) as [->|]; simplify_eq;
    by rewrite list_lookup_insert_ne.
Qed.

Lemma join_inv_step s a s' e :
  join_inv s → step a s = Some (s', e) → join_inv s'.
Proof.
  intros HI Hs. unfold join_inv in *.
  assert (owner s' = owner s ∨ a = Destroy ∨ a = StepD) as [Ho | [-> | ->]].
  { destruct a; eauto; left; by step_unfold Hs. }
  - rewrite Ho. destruct (owner s) as [|i|]; [done| |].
    + intros j Hj. eapply done_stable; eauto.
    + intros j pc Hj.
      destruct (threads_ s !! j) as [pc0|] eqn:Hj0.
      * pose proof (HI _ _ Hj0) as ->.
        pose proof (done_stable _ _ _ _ _ Hs Hj0). congruence.
      * apply lookup_ge_None in Hj0. apply lookup_lt_Some in Hj.
        destruct (length_step _ _ _ _ Hs) as [Hlen _]. lia.
  - step_unfold Hs. simpl. intros j Hj. lia.
  - step_unfold Hs; simpl.
    + intros j Hj. destruct (decide (j = i)) as [->|]; [done|]. apply HI. lia.
    + intros j pc Hj.
      assert (j < i) as Hlt.
      { apply lookup_lt_Some in Hj.
        match goal with H : _ !! i = None |- _ => apply lookup_ge_None in H end.
        lia. }
      specialize (HI _ Hlt). congruence.
Qed.

(** *** One caller: tasks are pushed in the order of the calls *)

Lemma single_caller_step s evs a s' e :
  length (callers s) = 1 →
  calls evs = pushes evs ++ pending (callers s) →
  step a s = Some (s', e) →
  calls (evs ++ e) = pushes (evs ++ e) ++ pending (callers s').
Proof.
  intros Hlen HI Hs. rewrite calls_app, pushes_app.
  destruct (callers s) as [|c [|]] eqn:Hcs; simplify_eq/=.
  step_inv Hs; simpl; rewrite ?Hcs in *; rewrite ?app_nil_r in *; try done.
  all: try match goal with
       | H : [_] !! ?k = Some _ |- _ => destruct k; simplify_eq/=
       end.
  all: unfold pending, inflight in *; simpl in *; rewrite ?app_nil_r in *;
    rewrite HI; simpl; by rewrite ?app_nil_r, <- ?(assoc_L (++)).
Qed.

(** *** One worker: tasks are invoked in the order they were popped *)

Lemma single_worker_step s evs a s' e :
  length (threads_ s) = 1 →
  pops evs = invokes evs ++ inflight (threads_ s) →
  step a s = Some (s', e) →
  pops (evs ++ e) = invokes (evs ++ e) ++ inflight (threads_ s').
Proof.
  intros Hlen HI Hs. rewrite pops_app, invokes_app.
  destruct (threads_ s) as [|c [|]] eqn:Hcs; simplify_eq/=.
  step_inv Hs; simpl; rewrite ?inflight_notify_all; 
    rewrite ?Hcs in *; rewrite ?app_nil_r in *; try done.
  all: try match goal with
       | H : [_] !! ?k = Some _ |- _ => destruct k; simplify_eq/=
       end.
  all: unfold pending, inflight in *; simpl in *; rewrite ?app_nil_r in *;
    rewrite HI; simpl; by rewrite ?app_nil_r, <- ?(assoc_L (++)).
Qed.

(** *** After [quit_] is set, each worker pops at most once more *)

Lemma after_quit_app evs e :
  after_quit (evs ++ e) =
  if has_quit evs then after_quit evs ++ e else after_quit e.
Proof. induction evs as [|[] evs IH]; simpl; done. Qed.

Lemma has_quit_app evs e : has_quit (evs ++ e) = has_quit evs || has_quit e.
Proof. induction evs as [|[] evs IH]; simpl; done. Qed.

Lemma budget_insert ws w pc pc' :
  ws !! w = Some pc →
  budget (<[w := pc']> ws) + can_pop pc = budget ws + can_pop pc'.
Proof.
  unfold budget. revert w.
  induction ws as [|x ws IH]; intros [|w] Hl; simplify_eq/=; [lia|].
  specialize (IH _ Hl). lia.
Qed.

Lemma budget_notify_all ws : budget (notify_all ws) = budget ws.
Proof.
  unfold budget, notify_all.
  induction ws as [|pc ws IH]; [done|].
  rewrite !fmap_cons. simpl. rewrite IH. by destruct pc.
Qed.

Lemma budget_le ws : budget ws ≤ length ws.
Proof.
  unfold budget. induction ws as [|pc ws IH]; [done|].
  rewrite fmap_cons. simpl. destruct pc; simpl; lia.
Qed.

Lemma quit_inv_step s evs a s' e :
  quit_inv s evs → step a s = Some (s', e) → quit_inv s' (evs ++ e).
Proof.
  intros [Hq HI] Hs. unfold quit_inv.
  rewrite has_quit_app, after_quit_app, Hq.
  pose proof (budget_le (threads_ s)) as Hle.
  step_inv Hs; simpl; rewrite ?orb_false_r, ?app_nil_r, ?orb_true_r,
    ?budget_notify_all, ?length_notify_all, ?length_insert; 
    (split; [done|]); try done.
  all: try match goal with
       | H : threads_ _ !! ?w = Some ?pc |- context [<[?w := ?pc']> _] =>
           pose proof (budget_insert _ _ _ pc' H) as HP; simpl in HP
       end.
  all: intros Hqt; try (specialize (HI Hqt)); try lia.
  all: rewrite ?pops_app, ?length_app in *; simpl in *; lia.
Qed.

(** *** The invariants along a run from a fresh pool *)

Lemma inflight_replicate n : inflight (replicate n (@WStart fp_t)) = [].
Proof. unfold inflight. induction n as [|n IH]; simpl; done. Qed.

Lemma inv_init name n K : inv (dispatch_queue (fp_t:=fp_t) name n K) [].
Proof.
  split; simpl; rewrite ?inflight_replicate;
    auto using lock_inv_init, wait_inv_init; done.
Qed.

Lemma inv_step s evs a s' e :
  inv s evs → step a s = Some (s', e) → inv s' (evs ++ e).
Proof.
  intros [] Hs.
  split; eauto using lock_inv_step, wait_inv_step, join_inv_step,
    quit_inv_step, fifo_step, conservation_step.
Qed.

Lemma inv_run name n K acts s evs :
  run acts (dispatch_queue name n K) = Some (s, evs) → inv s evs.
Proof.
  apply (run_invariant_init inv); [apply inv_init|].
  intros. by eapply inv_step.
Qed.

Lemma length_run acts s0 s evs :
  run acts s0 = Some (s, evs) →
  length (threads_ s) = length (threads_ s0) ∧
  length (callers s) = length (callers s0).
Proof.
  apply (run_invariant_init (λ s _,
    length (threads_ s) = length (threads_ s0) ∧
    length (callers s) = length (callers s0))); [done|].
  intros s1 _ a s2 e [H1 H2] Hs.
  destruct (length_step _ _ _ _ Hs) as [-> ->]. done.
Qed.

Lemma single_caller_run name n acts s evs :
  run acts (dispatch_queue name n 1) = Some (s, evs) →
  calls evs = pushes evs ++ pending (callers s).
Proof.
  intros Hrun.
  eapply (run_invariant_init (λ s evs,
    length (callers s) = 1 ∧
    calls evs = pushes evs ++ pending (callers s))); [..|exact Hrun]; [done|].
  intros s1 evs1 a s2 e [Hlen HI] Hs. split.
  - destruct (length_step _ _ _ _ Hs) as [_ ->]. done.
  - by eapply single_caller_step.
Qed.

Lemma single_worker_run name K acts s evs :
  run acts (dispatch_queue name 1 K) = Some (s, evs) →
  pops evs = invokes evs ++ inflight (threads_ s).
Proof.
  intros Hrun.
  eapply (run_invariant_init (λ s evs,
    length (threads_ s) = 1 ∧
    pops evs = invokes evs ++ inflight (threads_ s))); [..|exact Hrun]; [done|].
  intros s1 evs1 a s2 e [Hlen HI] Hs. split.
  - destruct (length_step _ _ _ _ Hs) as [-> _]. done.
  - by eapply single_worker_step.
Qed.

End Invariants.

(** * A call of [dispatch], statement by statement *)

Section Calls.
Context {fp_t : Type}.
Implicit Types (s : system fp_t) (evs e : list (event fp_t))
  (a : action fp_t) (acts : list (action fp_t))
  (ws : list (wpc fp_t)) (cs : list (cpc fp_t)).

Lemma step_call s k sh op :
  callers s !! k = Some CIdle →
  step (Call k sh op) s = Some (set_caller k (CLock sh op) s, [EvCall k op]).
Proof. intros H. simpl. by rewrite H. Qed.

Lemma step_caller s k pc :
  callers s !! k = Some pc → step (StepC k) s = dispatch k pc s.
Proof. intros H. simpl. by rewrite H. Qed.

Lemma step_worker s w pc :
  threads_ s !! w = Some pc → step (StepW w) s = dispatch_thread_handler w pc s.
Proof. intros H. simpl. by rewrite H. Qed.

Lemma step_lock s k sh op :
  callers s !! k = Some (CLock sh op) → lock_ s = None →
  step (StepC k) s =
    Some (set_caller k (CPush sh op) (set_lock (Some (Caller k)) s), []).
Proof.
  intros Hk Hl. rewrite (step_caller _ _ _ Hk).
  unfold dispatch; destruct sh; simpl; unfold acquire; by rewrite Hl.
Qed.

Lemma step_push s k sh op :
  callers s !! k = Some (CPush sh op) →
  step (StepC k) s =
    Some (set_caller k (CUnlock sh (residue sh op)) (set_q (q_ s ++ [op]) s),
          [EvPush k op]).
Proof. intros Hk. rewrite (step_caller _ _ _ Hk). by destruct sh. Qed.

Lemma step_unlock s k sh arg :
  callers s !! k = Some (CUnlock sh arg) →
  step (StepC k) s = Some (set_caller k (CNotify sh arg) (set_lock None s), []).
Proof. intros Hk. rewrite (step_caller _ _ _ Hk). by destruct sh. Qed.

Lemma step_notify s k sh arg :
  callers s !! k = Some (CNotify sh arg) →
  step (StepC k) s =
    Some (set_caller k CIdle (set_threads (notify_all (threads_ s)) s), []).
Proof. intros Hk. rewrite (step_caller _ _ _ Hk). by destruct sh. Qed.

Lemma run_cons a acts s s1 e1 :
  step a s = Some (s1, e1) →
  run (a :: acts) s =
  match run acts s1 with
  | Some (s2, e2) => Some (s2, e1 ++ e2)
  | None => None
  end.
Proof. intros H. simpl. by rewrite H. Qed.

Lemma run_cons_none a acts s :
  step a s = None → run (a :: acts) s = None.
Proof. intros H. simpl. by rewrite H. Qed.

Lemma notified_eq s k sh op :
  callers s !! k = Some CIdle → lock_ s = None →
  notified k sh op s =
  set_threads (notify_all (threads_ s)) (set_q (q_ s ++ [op]) s).
Proof.
  intros Hk Hl. destruct s as [nm lk ws q qt cs ow]; simpl in *; subst lk.
  unfold notified, unlocked, pushed, locked, set_caller, set_callers,
    set_threads, set_q, set_lock; simpl.
  f_equal. rewrite !list_insert_insert_eq. by apply list_insert_id.
Qed.

Lemma submit_steps s k sh op :
  callers s !! k = Some CIdle → lock_ s = None →
  step (Call k sh op) s = Some (set_caller k (CLock sh op) s, [EvCall k op]) ∧
  step (StepC k) (set_caller k (CLock sh op) s) = Some (locked k sh op s, []) ∧
  step (StepC k) (locked k sh op s) = Some (pushed k sh op s, [EvPush k op]) ∧
  step (StepC k) (pushed k sh op s) = Some (unlocked k sh op s, []) ∧
  step (StepC k) (unlocked k sh op s) = Some (notified k sh op s, []).
Proof.
  intros Hk Hl.
  assert (k < length (callers s)) as Hlt by (by eapply lookup_lt_Some).
  split; [by apply step_call|].
  split.
  { rewrite (step_lock _ k sh op); [|by apply list_lookup_insert_eq|done].
    unfold locked. f_equal. f_equal.
    unfold set_caller, set_callers, set_lock; simpl.
    by rewrite list_insert_insert_eq. }
  split.
  { rewrite (step_push _ k sh op); [done|].
    simpl. apply list_lookup_insert_eq. done. }
  split.
  { rewrite (step_unlock _ k sh (residue sh op)); [done|].
    simpl. apply list_lookup_insert_eq. by rewrite length_insert. }
  rewrite (step_notify _ k sh (residue sh op)); [done|].
  simpl. apply list_lookup_insert_eq. by rewrite !length_insert.
Qed.

Lemma submit_run s k sh op :
  callers s !! k = Some CIdle → lock_ s = None →
  run (submit k sh op) s =
    Some (set_threads (notify_all (threads_ s)) (set_q (q_ s ++ [op]) s),
          [EvCall k op; EvPush k op]).
Proof.
  intros Hk Hl.
  destruct (submit_steps s k sh op Hk Hl) as (H1 & H2 & H3 & H4 & H5).
  unfold submit.
  rewrite (run_cons _ _ _ _ _ H1), (run_cons _ _ _ _ _ H2),
    (run_cons _ _ _ _ _ H3), (run_cons _ _ _ _ _ H4), (run_cons _ _ _ _ _ H5).
  simpl. by rewrite notified_eq.
Qed.

End Calls.

(** * The two overloads of [dispatch] have the same effect *)

Section Overloads.
Context {fp_t : Type}.
Implicit Types (s : system fp_t) (evs e : list (event fp_t))
  (a : action fp_t) (acts : list (action fp_t))
  (ws : list (wpc fp_t)) (cs : list (cpc fp_t)).

Lemma forget_inv s1 s2 :
  forget s1 = forget s2 →
  name_ s1 = name_ s2 ∧ lock_ s1 = lock_ s2 ∧ threads_ s1 = threads_ s2 ∧
  q_ s1 = q_ s2 ∧ quit_ s1 = quit_ s2 ∧ owner s1 = owner s2 ∧
  forget_pc <$> callers s1 = forget_pc <$> callers s2.
Proof. unfold forget, set_callers. intros [=]. done. Qed.

Lemma forget_intro s1 s2 :
  name_ s1 = name_ s2 → lock_ s1 = lock_ s2 → threads_ s1 = threads_ s2 →
  q_ s1 = q_ s2 → quit_ s1 = quit_ s2 → owner s1 = owner s2 →
  forget_pc <$> callers s1 = forget_pc <$> callers s2 →
  forget s1 = forget s2.
Proof. unfold forget, set_callers. by intros -> -> -> -> -> -> ->. Qed.

Lemma forget_lookup s1 s2 k :
  forget_pc <$> callers s1 = forget_pc <$> callers s2 →
  forget_pc <$> (callers s1 !! k) = forget_pc <$> (callers s2 !! k).
Proof. intros H. by rewrite <- !list_lookup_fmap, H. Qed.

Lemma forget_insert cs1 cs2 k pc1 pc2 :
  forget_pc <$> cs1 = forget_pc <$> cs2 → forget_pc pc1 = forget_pc pc2 →
  forget_pc <$> <[k:=pc1]> cs1 = forget_pc <$> <[k:=pc2]> cs2.
Proof. intros H1 H2. by rewrite !list_fmap_insert, H1, H2. Qed.

Lemma step_same_outcome a1 a2 s1 s2 :
  same_action a1 a2 → forget s1 = forget s2 →
  same_outcome (step a1 s1) (step a2 s2).
Proof.
  intros Ha (Hn & Hl & Ht & Hq & Hqt & Ho & Hc)%forget_inv.
  destruct a1, a2; unfold same_action in Ha; simplify_eq/=.
  - pose proof (forget_lookup _ _ k0 Hc) as Hk.
    destruct (callers s1 !! k0) as [[]|], (callers s2 !! k0) as [[]|]; simplify_eq/=; try done.
    split; [|done]. apply forget_intro; simpl; auto using forget_insert.
  - pose proof (forget_lookup _ _ k0 Hc) as Hk.
    destruct (callers s1 !! k0) as [pc1|], (callers s2 !! k0) as [pc2|]; simplify_eq/=; try done.
    unfold dispatch.
    destruct pc1 as [|[]|[]|[]|[]], pc2 as [|[]|[]|[]|[]]; simplify_eq/=; try done;
    unfold acquire; rewrite <- ?Hl; try (destruct (lock_ s1) eqn:?); simpl; try done;
    (split; [|congruence]); apply forget_intro; simpl; auto using forget_insert; congruence.
  - rewrite <- Ht. destruct (threads_ s1 !! w0) as [pc|]; simpl; [|done].
    destruct pc; simpl; unfold acquire, wait_pred; rewrite <- ?Hl, <- ?Hq, <- ?Hqt; 
     repeat case_match; simpl; try done;
     (split; [|congruence]); apply forget_intro; simpl; auto; congruence.
  - rewrite <- Ht. repeat case_match; try done.
    split; [|done]; apply forget_intro; simpl; auto; congruence.
  - unfold destroy_begin. rewrite <- Ho. case_match; try done.
    split; [|done]; apply forget_intro; simpl; auto; congruence.
  - unfold destroy_step. rewrite <- Ho, <- Ht. repeat case_match; try done.
    all: split; [|done]; apply forget_intro; simpl; auto; congruence.
Qed.

Lemma run_same_outcome acts1 acts2 s1 s2 :
  Forall2 same_action acts1 acts2 → forget s1 = forget s2 →
  same_outcome (run acts1 s1) (run acts2 s2).
Proof.
  intros Ha. revert s1 s2.
  induction Ha as [|a1 a2 acts1 acts2 Ha _ IH]; intros s1 s2 Hs; simpl; [done|].
  pose proof (step_same_outcome _ _ _ _ Ha Hs) as H.
  destruct (step a1 s1) as [[s1' e1]|], (step a2 s2) as [[s2' e2]|]; simpl in H; try done.
  destruct H as [Hs' ->].
  specialize (IH _ _ Hs').
  destruct (run acts1 s1') as [[s1'' e1']|], (run acts2 s2') as [[s2'' e2']|]; simpl in *; try done.
  destruct IH as [? ->]. done.
Qed.

End Overloads.

(** * The claims of the specification *)

Section Claims.
Context {fp_t : Type}.
Implicit Types (s : system fp_t) (evs e : list (event fp_t))
  (a : action fp_t) (acts : list (action fp_t))
  (ws : list (wpc fp_t)) (cs : list (cpc fp_t)).

Lemma after_quit_none evs : has_quit evs = false → after_quit evs = [].
Proof. induction evs as [|[] evs IH]; simpl; auto. done. Qed.

Lemma inflight_done ws :
  (∀ w pc, ws !! w = Some pc → pc = WDone) → inflight ws = [].
Proof.
  unfold inflight. induction ws as [|pc ws IH]; intros H; [done|].
  simpl. rewrite (H 0 pc eq_refl). simpl. apply IH.
  intros w pc' Hw. apply (H (S w)). done.
Qed.

Lemma step_cond s w :
  threads_ s !! w = Some WCond →
  step (StepW w) s =
    Some (set_thread w (if quit_ s then WExit else WPred) s, []).
Proof. intros H. by rewrite (step_worker _ _ _ H). Qed.

(** Two workers are never inside a critical section together, and a
    worker reads [quit_] (lines 101 and 117) with [lock_] held. *)
Lemma mutual_exclusion name n K acts s evs w1 w2 pc1 pc2 :
  run acts (dispatch_queue name n K) = Some (s, evs) →
  threads_ s !! w1 = Some pc1 → threads_ s !! w2 = Some pc2 →
  holds_w pc1 = true → holds_w pc2 = true → w1 = w2.
Proof.
  intros Hrun H1 H2 Hh1 Hh2.
  destruct (inv_run _ _ _ _ _ _ Hrun) as [[Hw _] _ _ _ _ _].
  pose proof (Hw _ _ H1 Hh1). pose proof (Hw _ _ H2 Hh2). congruence.
Qed.

Lemma worker_reads_quit_locked name n K acts s evs w pc :
  run acts (dispatch_queue name n K) = Some (s, evs) →
  threads_ s !! w = Some pc → pc = WPred ∨ pc = WCond →
  lock_ s = Some (Worker w).
Proof.
  intros Hrun Hw Hpc.
  destruct (inv_run _ _ _ _ _ _ Hrun) as [[Hl _] _ _ _ _ _].
  apply (Hl _ _ Hw). by destruct Hpc as [-> | ->].
Qed.

(** The destructor's store neither tests nor takes [lock_]. *)
Lemma destroy_ignores_lock s l :
  step Destroy (set_lock l s) = prod_map (set_lock l) id <$> step Destroy s.
Proof. simpl. unfold destroy_begin. simpl. by destruct (owner s). Qed.

(** The destructor's first statement changes [quit_] and nothing else:
    no worker leaves the wait set. *)
Lemma destroy_wakes_nobody s s' e :
  step Destroy s = Some (s', e) →
  threads_ s' = threads_ s ∧ lock_ s' = lock_ s ∧ q_ s' = q_ s ∧
  quit_ s' = true.
Proof. intros Hs. by step_unfold Hs. Qed.

Lemma set_thread_set_thread s w pc pc' :
  set_thread w pc (set_thread w pc' s) = set_thread w pc s.
Proof. unfold set_thread, set_threads. simpl. by rewrite list_insert_insert_eq. Qed.

Lemma step_cond_pop s w op rest :
  threads_ s !! w = Some WCond → quit_ s = false → q_ s = op :: rest →
  run [StepW w; StepW w; StepW w] s =
    Some (set_thread w (WUnlock op) (set_q rest s), [EvPop w op]).
Proof.
  intros Hw Hquit Hq.
  assert (w < length (threads_ s)) as Hlt by (by eapply lookup_lt_Some).
  assert (step (StepW w) s = Some (set_thread w WPred s, [])) as H1.
  { rewrite (step_cond _ _ Hw). by rewrite Hquit. }
  assert (step (StepW w) (set_thread w WPred s) =
          Some (set_thread w WTest s, [])) as H2.
  { rewrite (step_worker _ w WPred) by (by apply list_lookup_insert_eq).
    simpl. unfold wait_pred. simpl. rewrite Hq.
    by rewrite set_thread_set_thread. }
  assert (step (StepW w) (set_thread w WTest s) =
          Some (set_thread w (WUnlock op) (set_q rest s), [EvPop w op])) as H3.
  { rewrite (step_worker _ w WTest) by (by apply list_lookup_insert_eq).
    simpl. rewrite Hq. f_equal. f_equal.
    unfold set_thread, set_threads, set_q. simpl.
    by rewrite list_insert_insert_eq. }
  rewrite (run_cons _ _ _ _ _ H1), (run_cons _ _ _ _ _ H2),
    (run_cons _ _ _ _ _ H3). done.
Qed.

Lemma quit_stable s a s' e :
  step a s = Some (s', e) → quit_ s = true → quit_ s' = true.
Proof. intros Hs Hq. step_inv Hs; simpl; done. Qed.

Lemma popped_inv_step s evs a s' e :
  inv s evs → popped_inv s evs → step a s = Some (s', e) →
  popped_inv s' (evs ++ e).
Proof.
  intros [_ Hwait _ [Hhq _] _ _] HK Hs Hprem. unfold popped_inv in *.
  rewrite after_quit_app, Hhq in Hprem. rewrite pops_app, length_app.
  unfold wait_inv, wait_pred in Hwait.
  destruct (quit_ s) eqn:Hq.
  - destruct Hprem as [Hf|[Hp Hqs']];
      [by rewrite (quit_stable _ _ _ _ Hs Hq) in Hf|].
    rewrite pushes_app in Hp. apply app_eq_nil in Hp as [Hp Hpe].
    assert (q_ s ≠ []) as Hqs.
    { step_inv Hs; simpl in *; done. }
    specialize (HK (or_intror (conj Hp Hqs))).
    step_inv Hs; simpl in *;
      rewrite ?length_insert, ?length_notify_all, ?budget_notify_all,
        ?Nat.add_0_r; try done.
    all: try match goal with
         | H : threads_ _ !! ?w = Some ?pc |- context [<[?w := ?pc']> _] =>
             pose proof (budget_insert _ _ _ pc' H) as HP; simpl in HP
         end; try lia.
  - specialize (HK (or_introl eq_refl)). clear Hprem.
    step_inv Hs; simpl in *;
      rewrite ?length_insert, ?length_notify_all, ?budget_notify_all,
        ?Nat.add_0_r; try done.
    all: try match goal with
         | H : threads_ _ !! ?w = Some ?pc |- context [<[?w := ?pc']> _] =>
             pose proof (budget_insert _ _ _ pc' H) as HP; simpl in HP
         end; try lia.
    by specialize (Hwait _ Heqo).
Qed.

Lemma budget_done ws :
  (∀ w pc, ws !! w = Some pc → pc = WDone) → budget ws = 0.
Proof.
  unfold budget. induction ws as [|pc ws IH]; intros H; [done|].
  rewrite fmap_cons. simpl. rewrite (H 0 pc eq_refl). simpl. apply IH.
  intros w pc' Hw. by apply (H (S w)).
Qed.

Lemma budget_replicate n : budget (replicate n (@WStart fp_t)) = n.
Proof.
  unfold budget. induction n as [|n IH]; [done|].
  change (replicate (S n) (@WStart fp_t))
    with (@WStart fp_t :: replicate n WStart).
  rewrite fmap_cons. simpl. by rewrite IH.
Qed.

Lemma popped_inv_run name n K acts s evs :
  run acts (dispatch_queue name n K) = Some (s, evs) →
  inv s evs ∧ popped_inv s evs.
Proof.
  apply (run_invariant_init (λ s evs, inv s evs ∧ popped_inv s evs)).
  - split; [apply inv_init|]. intros _. simpl.
    rewrite length_replicate, budget_replicate. lia.
  - intros s1 e1 a s2 e2 [Hi Hk] Hs.
    split; [by eapply inv_step|by eapply popped_inv_step].
Qed.

Lemma small_batch_drained name n K acts s evs :
  run acts (dispatch_queue name n K) = Some (s, evs) →
  owner s = DDead →
  pushes (after_quit evs) = [] →
  length (pushes evs) ≤ n →
  q_ s = [] ∧ invokes evs ≡ₚ pushes evs.
Proof.
  intros Hrun Ho Hnp Hle.
  destruct (popped_inv_run _ _ _ _ _ _ Hrun) as [Hinv HK].
  destruct Hinv as [_ _ Hdone _ Hfifo Hperm].
  unfold join_inv in Hdone. rewrite Ho in Hdone.
  rewrite (inflight_done _ Hdone), app_nil_r in Hperm.
  destruct (length_run _ _ _ _ Hrun) as [Hlen _]. simpl in Hlen.
  rewrite length_replicate in Hlen.
  assert (q_ s = []) as Hq.
  { destruct (q_ s) as [|op rest] eqn:Hqs; [done|]. exfalso.
    unfold popped_inv in HK. rewrite Hqs in HK.
    assert (length (threads_ s) ≤ length (pops evs) + budget (threads_ s))
      as Hb by (apply HK; right; done).
    rewrite (budget_done _ Hdone) in Hb.
    rewrite Hfifo, length_app in Hle. simpl in Hle. lia. }
  split; [done|]. by rewrite Hfifo, Hq, app_nil_r, Hperm.
Qed.

(** When the destructor has returned and nothing was pushed after
    [quit_] was set, either the queue is empty or every one of the [n]
    workers has executed a task. *)
Lemma shutdown_lower_bound name n K acts s evs :
  run acts (dispatch_queue name n K) = Some (s, evs) →
  owner s = DDead →
  pushes (after_quit evs) = [] →
  q_ s = [] ∨ n ≤ length (invokes evs).
Proof.
  intros Hrun Ho Hnp.
  destruct (popped_inv_run _ _ _ _ _ _ Hrun) as [Hinv HK].
  destruct Hinv as [_ _ Hdone _ Hfifo Hperm].
  unfold join_inv in Hdone. rewrite Ho in Hdone.
  rewrite (inflight_done _ Hdone), app_nil_r in Hperm.
  destruct (length_run _ _ _ _ Hrun) as [Hlen _]. simpl in Hlen.
  rewrite length_replicate in Hlen.
  destruct (q_ s) as [|op rest] eqn:Hqs; [by left|]. right.
  unfold popped_inv in HK. rewrite Hqs in HK.
  assert (length (threads_ s) ≤ length (pops evs) + budget (threads_ s))
    as Hb by (apply HK; right; done).
  rewrite (budget_done _ Hdone) in Hb.
  apply Permutation_length in Hperm. lia.
Qed.

(** A worker that evaluates the wait predicate on a non-empty queue
    pops its front, whether [quit_] is set or not. *)
Lemma step_pred_pop s w op rest :
  threads_ s !! w = Some WPred → q_ s = op :: rest →
  run [StepW w; StepW w] s =
    Some (set_thread w (WUnlock op) (set_q rest s), [EvPop w op]).
Proof.
  intros Hw Hq.
  assert (w < length (threads_ s)) as Hlt by (by eapply lookup_lt_Some).
  assert (step (StepW w) s = Some (set_thread w WTest s, [])) as H1.
  { rewrite (step_worker _ _ _ Hw). simpl. unfold wait_pred. by rewrite Hq. }
  assert (step (StepW w) (set_thread w WTest s) =
          Some (set_thread w (WUnlock op) (set_q rest s), [EvPop w op])) as H2.
  { rewrite (step_worker _ w WTest) by (by apply list_lookup_insert_eq).
    simpl. rewrite Hq. f_equal. f_equal.
    unfold set_thread, set_threads, set_q. simpl.
    by rewrite list_insert_insert_eq. }
  rewrite (run_cons _ _ _ _ _ H1), (run_cons _ _ _ _ _ H2). done.
Qed.

(** C1, amended.  Along every run of a pool of [n] workers: a worker
    that reaches the test [while (!quit_)] goes back to the wait exactly
    when [quit_] is not set, and then pops the next task if there is
    one; when [quit_] is set it leaves the loop, whatever the queue
    holds.  A worker that evaluates the wait predicate on a non-empty
    queue pops a task, also when [quit_] is set.  After [quit_] has been
    set the workers pop at most [n] further tasks in total.  When the
    destructor has returned, every worker has returned, the tasks
    popped are an initial segment of the tasks pushed, the rest is
    still in [q_], and the tasks executed are exactly the popped ones;
    if moreover no task was pushed after [quit_] was set, then the queue
    is empty or at least [n] tasks have been executed, so that a batch
    of at most [n] tasks is drained: every task has been executed. *)
Theorem C1_shutdown_accounting name n K acts s evs :
  run acts (dispatch_queue name n K) = Some (s, evs) →
  (∀ w, threads_ s !! w = Some WCond →
        step (StepW w) s =
          Some (set_thread w (if quit_ s then WExit else WPred) s, [])) ∧
  (∀ w op rest,
     threads_ s !! w = Some WCond → quit_ s = false → q_ s = op :: rest →
     run [StepW w; StepW w; StepW w] s =
       Some (set_thread w (WUnlock op) (set_q rest s), [EvPop w op])) ∧
  (∀ w op rest,
     threads_ s !! w = Some WPred → q_ s = op :: rest →
     run [StepW w; StepW w] s =
       Some (set_thread w (WUnlock op) (set_q rest s), [EvPop w op])) ∧
  length (pops (after_quit evs)) ≤ n ∧
  (owner s = DDead →
   (∀ w pc, threads_ s !! w = Some pc → pc = WDone) ∧
   pushes evs = pops evs ++ q_ s ∧
   pops evs ≡ₚ invokes evs ∧
   (pushes (after_quit evs) = [] →
    (q_ s = [] ∨ n ≤ length (invokes evs)) ∧
    (length (pushes evs) ≤ n → q_ s = [] ∧ invokes evs ≡ₚ pushes evs))).
Proof.
  intros Hrun. pose proof (inv_run _ _ _ _ _ _ Hrun) as [].
  split; [by apply step_cond|]. split; [by apply step_cond_pop|].
  split; [by apply step_pred_pop|]. split.
  - destruct (length_run _ _ _ _ Hrun) as [Hlen _]. simpl in Hlen.
    rewrite length_replicate in Hlen.
    destruct inv_quit0 as [Hq Hb]. destruct (quit_ s).
    + specialize (Hb eq_refl). lia.
    + rewrite (after_quit_none _ Hq). simpl. lia.
  - intros Ho. pose proof inv_join0 as Hdone.
    unfold join_inv in Hdone. rewrite Ho in Hdone.
    split; [done|]. split; [done|]. split.
    + rewrite inv_cons0, (inflight_done _ Hdone). by rewrite app_nil_r.
    + intros Hnp. split.
      * by eapply shutdown_lower_bound.
      * intros Hle. by eapply small_batch_drained.
Qed.

Lemma wake_exit (pc : wpc fp_t) : wake pc = WExit → pc = WExit.
Proof. by destruct pc. Qed.

Lemma exit_step s a s' e w :
  step a s = Some (s', e) →
  threads_ s !! w ≠ Some WExit → threads_ s' !! w = Some WExit →
  a = StepW w ∧ threads_ s !! w = Some WCond ∧ quit_ s = true ∧ q_ s' = q_ s.
Proof.
  intros Hs Hpre Hpost.
  step_inv Hs; simpl in *; try done.
  all: try (apply lookup_notify_all in Hpost as (pc0 & Hl & Hw);
            symmetry in Hw; apply wake_exit in Hw; by subst).
  all: apply list_lookup_insert_Some in Hpost as [(? & ? & ?) | (? & ?)];
    simplify_eq; done.
Qed.

Lemma step_cond_ignores_queue s w q :
  threads_ s !! w = Some WCond →
  step (StepW w) (set_q q s) = prod_map (set_q q) id <$> step (StepW w) s.
Proof.
  intros Hw.
  rewrite (step_cond (set_q q s) w) by done.
  by rewrite (step_cond s w).
Qed.

(** C2, amended.  Along every run from a fresh pool, a worker leaves its
    loop only by the test [while (!quit_)] of line 117, and only with
    [quit_] set.  That test looks at [quit_] alone: a worker at line 117
    leaves the loop when [quit_] is set and goes back to the wait when
    it is not, whatever the queue holds, and the step is the same for
    any other contents of the queue.  When the wait has returned and the
    worker finds the queue empty, [quit_] is set and its next two
    statements take it out of the loop with the queue still empty. *)
Theorem C2_exit_only_on_quit name n K acts s evs :
  run acts (dispatch_queue name n K) = Some (s, evs) →
  (∀ a w s' e,
     step a s = Some (s', e) →
     threads_ s !! w ≠ Some WExit → threads_ s' !! w = Some WExit →
     a = StepW w ∧ threads_ s !! w = Some WCond ∧ quit_ s = true ∧
     q_ s' = q_ s) ∧
  (∀ w, threads_ s !! w = Some WTest → q_ s = [] →
        quit_ s = true ∧
        run [StepW w; StepW w] s = Some (set_thread w WExit s, [])) ∧
  (∀ w, threads_ s !! w = Some WCond →
        step (StepW w) s =
          Some (set_thread w (if quit_ s then WExit else WPred) s, [])) ∧
  (∀ w q, threads_ s !! w = Some WCond →
          step (StepW w) (set_q q s) =
          prod_map (set_q q) id <$> step (StepW w) s).
Proof.
  intros Hrun. pose proof (inv_run _ _ _ _ _ _ Hrun) as [].
  split; [intros; by eapply exit_step|].
  split; [|split; [by apply step_cond|by apply step_cond_ignores_queue]].
  intros w Hw Hq.
  assert (quit_ s = true) as Hquit.
  { specialize (inv_wait0 _ Hw). unfold wait_pred in inv_wait0.
    by rewrite Hq in inv_wait0. }
  split; [done|].
  assert (step (StepW w) s = Some (set_thread w WCond s, [])) as H1.
  { rewrite (step_worker _ _ _ Hw). simpl. by rewrite Hq. }
  assert (step (StepW w) (set_thread w WCond s) =
          Some (set_thread w WExit s, [])) as H2.
  { rewrite (step_cond _ w).
    - simpl. rewrite Hquit. by rewrite set_thread_set_thread.
    - simpl. apply list_lookup_insert_eq. by eapply lookup_lt_Some. }
  rewrite (run_cons _ _ _ _ _ H1), (run_cons _ _ _ _ _ H2). done.
Qed.

(** C5.  A call of [dispatch] by an idle caller, with the mutex free,
    goes through exactly these statements: it takes [lock_]; appends the
    task at the tail of [q_] while it holds the lock; releases the lock,
    the workers untouched; then [notify_all] wakes every worker of the
    wait set, and the call returns.  No step of a worker is needed: the
    call does not wait for the task to run. *)
Theorem C5_dispatch_effect s k sh op :
  callers s !! k = Some CIdle → lock_ s = None →
  (step (Call k sh op) s = Some (set_caller k (CLock sh op) s, [EvCall k op]) ∧
   step (StepC k) (set_caller k (CLock sh op) s) = Some (locked k sh op s, []) ∧
   step (StepC k) (locked k sh op s) = Some (pushed k sh op s, [EvPush k op]) ∧
   step (StepC k) (pushed k sh op s) = Some (unlocked k sh op s, []) ∧
   step (StepC k) (unlocked k sh op s) = Some (notified k sh op s, [])) ∧
  (lock_ (locked k sh op s) = Some (Caller k) ∧
   q_ (locked k sh op s) = q_ s) ∧
  (lock_ (pushed k sh op s) = Some (Caller k) ∧
   q_ (pushed k sh op s) = q_ s ++ [op]) ∧
  (lock_ (unlocked k sh op s) = None ∧
   threads_ (unlocked k sh op s) = threads_ s) ∧
  notified k sh op s =
    set_threads (notify_all (threads_ s)) (set_q (q_ s ++ [op]) s) ∧
  (∀ w, threads_ s !! w = Some WBlocked →
        threads_ (notified k sh op s) !! w = Some WWoken) ∧
  callers (notified k sh op s) !! k = Some CIdle ∧
  run (submit k sh op) s =
    Some (notified k sh op s, [EvCall k op; EvPush k op]).
Proof.
  intros Hk Hl.
  split; [by apply submit_steps|].
  repeat split; try done.
  - by apply notified_eq.
  - intros w Hw. simpl. unfold notify_all.
    by rewrite list_lookup_fmap, Hw.
  - rewrite notified_eq by done. done.
  - rewrite notified_eq by done. by apply submit_run.
Qed.

(** C6, amended.  Tasks leave the queue in the order in which they
    entered it, for any number of workers and callers: the popped tasks
    followed by the queued ones are the pushed tasks.  With a single
    caller the pushes follow the order of its calls.  With a single
    worker the tasks also begin execution in the order they were popped;
    with more workers that order is not kept. *)
Theorem C6_fifo_dequeue name n K acts s evs :
  run acts (dispatch_queue name n K) = Some (s, evs) →
  pushes evs = pops evs ++ q_ s ∧
  (K = 1 → calls evs = pushes evs ++ pending (callers s)) ∧
  (n = 1 → pops evs = invokes evs ++ inflight (threads_ s)).
Proof.
  intros Hrun. pose proof (inv_run _ _ _ _ _ _ Hrun) as [].
  split; [done|]. split.
  - intros ->. by eapply single_caller_run.
  - intros ->. by eapply single_worker_run.
Qed.

(** C7, amended.  Along every run from a fresh pool, every task that
    was pushed is in exactly one place: executed, held by the worker
    that popped it, or still queued.  So no task is executed twice; and
    every task has been executed exactly once as soon as the queue is
    empty and no worker holds a task.  A task that is still queued when
    the workers leave is executed zero times. *)
Theorem C7_at_most_once name n K acts s evs :
  run acts (dispatch_queue name n K) = Some (s, evs) →
  pushes evs ≡ₚ invokes evs ++ inflight (threads_ s) ++ q_ s ∧
  invokes evs ⊆+ pushes evs ∧
  (NoDup (pushes evs) → NoDup (invokes evs)) ∧
  (inflight (threads_ s) = [] → q_ s = [] → invokes evs ≡ₚ pushes evs).
Proof.
  intros Hrun. pose proof (inv_run _ _ _ _ _ _ Hrun) as [].
  assert (pushes evs ≡ₚ invokes evs ++ inflight (threads_ s) ++ q_ s) as HP.
  { rewrite inv_fifo0, inv_cons0. by rewrite <- (assoc_L (++)). }
  split; [done|]. split; [|split].
  - rewrite HP. by apply submseteq_inserts_r.
  - rewrite HP. by intros [? _]%NoDup_app.
  - intros Hi Hq. rewrite HP, Hi, Hq. by rewrite !app_nil_r.
Qed.

Lemma same_action_shapes a :
  same_action (with_shape ByCopy a) (with_shape ByMove a).
Proof. by destruct a. Qed.

Lemma run_submit_locked s k sh op t :
  callers s !! k = Some CIdle → lock_ s = Some t →
  run (submit k sh op) s = None.
Proof.
  intros Hk Hl. unfold submit.
  rewrite (run_cons _ _ _ _ _ (step_call _ _ sh op Hk)).
  assert (step (StepC k) (set_caller k (CLock sh op) s) = None) as H;
    [|by rewrite (run_cons_none _ _ _ H)].
  rewrite (step_caller _ k (CLock sh op)).
  - unfold dispatch. destruct sh; simpl; unfold acquire; simpl; by rewrite Hl.
  - simpl. apply list_lookup_insert_eq. by eapply lookup_lt_Some.
Qed.

Lemma run_submit_busy s k sh op :
  callers s !! k ≠ Some CIdle → run (submit k sh op) s = None.
Proof.
  intros H. unfold submit. simpl.
  destruct (callers s !! k) as [[]|]; done.
Qed.

Lemma submit_overloads s k op :
  run (submit k ByCopy op) s = run (submit k ByMove op) s.
Proof.
  destruct (callers s !! k) as [pc|] eqn:Hk.
  - destruct pc.
    + destruct (lock_ s) as [t|] eqn:Hl.
      * by rewrite !(run_submit_locked _ _ _ _ t).
      * by rewrite !submit_run.
    + rewrite !run_submit_busy; [done|congruence..].
    + rewrite !run_submit_busy; [done|congruence..].
    + rewrite !run_submit_busy; [done|congruence..].
    + rewrite !run_submit_busy; [done|congruence..].
  - rewrite !run_submit_busy; [done|congruence..].
Qed.

(** C8.  Take any schedule and any state.  Running the schedule with
    every call made through the copying overload, or with every call
    made through the moving overload, either blocks in both cases or
    yields the same events and two states that agree on every member of
    the class ([lock_], [threads_] and so the workers woken, [q_],
    [quit_]) and on the control point of every caller: they differ only
    in what is left in the callers' argument objects.  A whole call that
    nothing interleaves ends in the same state for both overloads. *)
Theorem C8_overloads_equivalent acts s k op :
  same_outcome (run (with_shape ByCopy <$> acts) s)
               (run (with_shape ByMove <$> acts) s) ∧
  run (submit k ByCopy op) s = run (submit k ByMove op) s.
Proof.
  split; [|apply submit_overloads].
  apply run_same_outcome; [|done].
  apply Forall2_fmap, Forall2_same_length_lookup. split; [done|].
  intros i a1 a2 H1 H2. simplify_eq. apply same_action_shapes.
Qed.

Lemma zero_workers_step s evs a s' e :
  threads_ s = [] ∧ pops evs = [] ∧ invokes evs = [] →
  step a s = Some (s', e) →
  threads_ s' = [] ∧ pops (evs ++ e) = [] ∧ invokes (evs ++ e) = [].
Proof.
  intros (Ht & Hp & Hi) Hs. rewrite pops_app, invokes_app, Hp, Hi.
  step_inv Hs; simpl; rewrite ?Ht in *; simplify_eq/=; done.
Qed.

Lemma set_threads_nil s :
  threads_ s = [] → set_threads (notify_all (threads_ s)) s = s.
Proof. destruct s; simpl. by intros ->. Qed.

(** C9.  [dispatch_queue(name, 0)] returns a pool like any other, with
    an empty [threads_].  Along every run from it nothing is popped and
    nothing is executed, every pushed task stays in [q_], and a call of
    [dispatch] by an idle caller still goes through and appends its task:
    nothing tells the caller that the task will never run. *)
Theorem C9_zero_workers name K acts s evs :
  run acts (dispatch_queue name 0 K) = Some (s, evs) →
  threads_ (dispatch_queue (fp_t:=fp_t) name 0 K) = [] ∧
  threads_ s = [] ∧ pops evs = [] ∧ invokes evs = [] ∧
  q_ s = pushes evs ∧
  (∀ k sh op, callers s !! k = Some CIdle → lock_ s = None →
     run (submit k sh op) s =
       Some (set_q (q_ s ++ [op]) s, [EvCall k op; EvPush k op])).
Proof.
  intros Hrun. split; [done|].
  assert (threads_ s = [] ∧ pops evs = [] ∧ invokes evs = [])
    as (Ht & Hp & Hi).
  { eapply (run_invariant_init
      (λ s evs, threads_ s = [] ∧ pops evs = [] ∧ invokes evs = []));
      [| |exact Hrun]; [done|].
    intros. by eapply zero_workers_step. }
  pose proof (inv_run _ _ _ _ _ _ Hrun) as [].
  repeat split; try done.
  - by rewrite inv_fifo0, Hp.
  - intros k sh op Hk Hl. rewrite submit_run by done.
    f_equal. f_equal.
    rewrite <- (set_threads_nil (set_q (q_ s ++ [op]) s)) at 2; done.
Qed.

Lemma caller_step_set_quit s b a :
  by_caller a = true →
  step a (set_quit b s) = prod_map (set_quit b) id <$> step a s.
Proof.
  intros Ha. destruct a; simplify_eq/=.
  - destruct (callers s !! k) as [[]|]; done.
  - destruct (callers s !! k) as [pc|]; simpl; [|done].
    unfold dispatch.
    destruct pc as [|[]|[]|[]|[]]; simpl; try done;
      unfold acquire; simpl; destruct (lock_ s); done.
Qed.

(** C10.  A call of [dispatch], through either overload, by an idle
    caller with the mutex free, runs the same way whatever the value of
    [quit_], also after the destructor has set it: the task is appended
    at the tail of [q_], the flag is left as it is, and nothing is
    refused.  No statement of [dispatch] depends on [quit_]: each of its
    steps commutes with a change of the flag. *)
Theorem C10_submit_ignores_quit s k sh op b :
  callers s !! k = Some CIdle → lock_ s = None →
  run (submit k sh op) (set_quit b s) =
    Some (set_quit b (set_threads (notify_all (threads_ s))
                        (set_q (q_ s ++ [op]) s)),
          [EvCall k op; EvPush k op]) ∧
  (∀ s0 a, by_caller a = true →
     step a (set_quit b s0) = prod_map (set_quit b) id <$> step a s0).
Proof.
  intros Hk Hl. split.
  - rewrite submit_run by done. done.
  - intros. by apply caller_step_set_quit.
Qed.

End Claims.

(** * The claims on concrete pools *)

Example shutdown_one_worker_run :
  run shutdown_one_worker (pool 1) =
  Some (pool_state None [WDone] [2] true DDead,
        [EvCall 0 1; EvPush 0 1; EvCall 0 2; EvPush 0 2; EvQuit;
         EvPop 0 1; EvInvoke 0 1; EvJoin 0]).
Proof. vm_compute. reflexivity. Qed.

Example quit_while_running_run :
  run quit_while_running (pool 1) =
  Some (pool_state (Some (Worker 0)) [WCond] [2] true (DJoin 0),
        [EvCall 0 1; EvPush 0 1; EvCall 0 2; EvPush 0 2; EvPop 0 1;
         EvQuit; EvInvoke 0 1]).
Proof. vm_compute. reflexivity. Qed.

Example overtake_run :
  run overtake (pool 2) =
  Some (pool_state None [WRelock; WRelock] [] false DLive,
        [EvCall 0 1; EvPush 0 1; EvCall 0 2; EvPush 0 2; EvPop 0 1;
         EvPop 1 2; EvInvoke 1 2; EvInvoke 0 1]).
Proof. vm_compute. reflexivity. Qed.

Example shutdown_two_workers_run :
  run shutdown_two_workers (pool 2) =
  Some (pool_state None [WDone; WDone] [3] true DDead,
        [EvCall 0 1; EvPush 0 1; EvCall 0 2; EvPush 0 2; EvCall 0 3;
         EvPush 0 3; EvPop 0 1; EvPop 1 2; EvQuit; EvInvoke 0 1;
         EvInvoke 1 2; EvJoin 0; EvJoin 1]).
Proof. vm_compute. reflexivity. Qed.

Example destroy_idle_run :
  run destroy_idle (pool 1) =
  Some (pool_state None [WBlocked] [] true (DJoin 0), [EvQuit]).
Proof. vm_compute. reflexivity. Qed.

Example starve_run :
  run starve (pool 0) =
  Some (pool_state None [] [1; 2; 3] false DLive,
        [EvCall 0 1; EvPush 0 1; EvCall 0 2; EvPush 0 2; EvCall 0 3;
         EvPush 0 3]).
Proof. vm_compute. reflexivity. Qed.

(** The smallest pool that shows it: one idle worker. *)
Example destroy_idle_stuck :
  (∀ w, step (StepW w) (pool_state None [WBlocked] [] true (DJoin 0)) = None) ∧
  step StepD (pool_state None [WBlocked] [] true (DJoin 0)) = None.
Proof. split; [intros [|w]|]; reflexivity. Qed.

(** What the missing notification would have done: if the wait wakes
    up spuriously, the worker sees [quit_], returns, and the destructor
    joins it. *)
Example destroy_idle_spurious_run :
  run (destroy_idle ++
       [Spurious 0; StepW 0; StepW 0; StepW 0; StepW 0; StepW 0;
        StepD; StepD]) (pool 1) =
  Some (pool_state None [WDone] [] true DDead, [EvQuit; EvJoin 0]).
Proof. vm_compute. reflexivity. Qed.

(** C1 fails as stated: with one worker, two tasks submitted and
    shutdown requested at once, the destructor returns while task 2 is
    still in the queue and was never executed. *)
Lemma C1_counterexample : ¬ drain_before_exit (pool 1).
Proof.
  intros H.
  specialize (H shutdown_one_worker _ _ shutdown_one_worker_run eq_refl 2).
  vm_compute in H.
  assert (2 ∈ [1; 2]) as Hin by (apply list_elem_of_In; simpl; auto).
  apply H, list_elem_of_In in Hin. simpl in Hin.
  destruct Hin as [Hin|[]]. discriminate.
Qed.

Lemma C1_shutdown_accounting_witness :
  run shutdown_one_worker (pool 1) =
    Some (pool_state None [WDone] [2] true DDead,
          [EvCall 0 1; EvPush 0 1; EvCall 0 2; EvPush 0 2; EvQuit;
           EvPop 0 1; EvInvoke 0 1; EvJoin 0]) ∧
  length (pops (after_quit
    [EvCall 0 1; EvPush 0 1; EvCall 0 2; EvPush 0 2; EvQuit;
     EvPop 0 1; EvInvoke 0 1; EvJoin 0])) ≤ 1 ∧
  pops [EvCall 0 1; EvPush 0 1; EvCall 0 2; EvPush 0 2; EvQuit;
        EvPop 0 1; EvInvoke 0 1; EvJoin 0] ≡ₚ
  invokes [EvCall 0 1; EvPush 0 1; EvCall 0 2; EvPush 0 2; EvQuit;
           EvPop 0 1; EvInvoke 0 1; EvJoin 0] ∧
  ([2] = [] ∨
   1 ≤ length (invokes
     [EvCall 0 1; EvPush 0 1; EvCall 0 2; EvPush 0 2; EvQuit;
      EvPop 0 1; EvInvoke 0 1; EvJoin 0])) ∧
  (@nil nat = [] ∧
   invokes [EvCall 0 1; EvPush 0 1; EvQuit; EvPop 0 1; EvInvoke 0 1;
            EvJoin 0] ≡ₚ
   pushes [EvCall 0 1; EvPush 0 1; EvQuit; EvPop 0 1; EvInvoke 0 1;
           EvJoin 0]).
Proof.
  assert (run shutdown_one_worker (dispatch_queue "pool" 1 1) =
    Some (pool_state None [WDone] [2] true DDead,
          [EvCall 0 1; EvPush 0 1; EvCall 0 2; EvPush 0 2; EvQuit;
           EvPop 0 1; EvInvoke 0 1; EvJoin 0])) as Hrun
    by (vm_compute; reflexivity).
  assert (run shutdown_one_task (dispatch_queue "pool" 1 1) =
    Some (pool_state None [WDone] [] true DDead,
          [EvCall 0 1; EvPush 0 1; EvQuit; EvPop 0 1; EvInvoke 0 1;
           EvJoin 0])) as Hrun1
    by (vm_compute; reflexivity).
  split; [exact Hrun|].
  destruct (C1_shutdown_accounting _ _ _ _ _ _ Hrun) as (_ & _ & _ & Hb & Hd).
  split; [exact Hb|].
  destruct (Hd eq_refl) as (_ & _ & Hperm & Hno).
  split; [exact Hperm|].
  split; [exact (proj1 (Hno eq_refl))|].
  destruct (C1_shutdown_accounting _ _ _ _ _ _ Hrun1) as (_ & _ & _ & _ & Hd1).
  destruct (Hd1 eq_refl) as (_ & _ & _ & Hno1).
  apply (proj2 (Hno1 eq_refl)). vm_compute. lia.
Defined.

(** C2 fails as stated: the worker that has just run task 1 leaves its
    loop at line 117 although task 2 is in the queue. *)
Lemma C2_counterexample : ¬ exits_only_when_drained (pool 1).
Proof.
  intros H.
  destruct (H quit_while_running _ _ 0
              (pool_state (Some (Worker 0)) [WExit] [2] true (DJoin 0)) []
              quit_while_running_run) as [Hq _].
  - vm_compute. reflexivity.
  - vm_compute. discriminate.
  - vm_compute. reflexivity.
  - vm_compute in Hq. discriminate.
Qed.

Lemma C2_exit_only_on_quit_witness :
  run quit_while_running (pool 1) =
    Some (pool_state (Some (Worker 0)) [WCond] [2] true (DJoin 0),
          [EvCall 0 1; EvPush 0 1; EvCall 0 2; EvPush 0 2; EvPop 0 1;
           EvQuit; EvInvoke 0 1]) ∧
  (StepW 0 = StepW (fp_t:=nat) 0 ∧ [@WCond nat] !! 0 = Some WCond ∧
   true = true ∧ [2] = [2]) ∧
  step (StepW 0) (pool_state (Some (Worker 0)) [WCond] [2] true (DJoin 0)) =
    Some (pool_state (Some (Worker 0)) [WExit] [2] true (DJoin 0), []).
Proof.
  assert (run quit_while_running (dispatch_queue "pool" 1 1) =
    Some (pool_state (Some (Worker 0)) [WCond] [2] true (DJoin 0),
          [EvCall 0 1; EvPush 0 1; EvCall 0 2; EvPush 0 2; EvPop 0 1;
           EvQuit; EvInvoke 0 1])) as Hrun
    by (vm_compute; reflexivity).
  split; [exact Hrun|].
  destruct (C2_exit_only_on_quit _ _ _ _ _ _ Hrun) as (Hexit & _ & Hcond & _).
  split.
  - apply (Hexit (StepW 0) 0
             (pool_state (Some (Worker 0)) [WExit] [2] true (DJoin 0)) []).
    + vm_compute. reflexivity.
    + vm_compute. discriminate.
    + vm_compute. reflexivity.
  - apply (Hcond 0). reflexivity.
Defined.

(** C3: the destructor writes [quit_] and goes straight to the joins;
    it has no [notify_all].  In the program's own [main], once worker 0
    is back in the wait the destructor's store leaves it there: no
    worker, no caller and not the destructor can take a step, so
    [threads_[0].join()] never returns unless the wait wakes up
    spuriously. *)
Theorem C3_destructor_does_not_wake :
  run main_schedule main_pool =
    Some (main_stuck,
          [EvCall 0 1; EvPush 0 1; EvCall 0 2; EvPush 0 2; EvCall 0 3;
           EvPush 0 3; EvCall 0 4; EvPush 0 4; EvPop 0 1; EvInvoke 0 1;
           EvPop 0 2; EvInvoke 0 2; EvPop 0 3; EvInvoke 0 3; EvPop 0 4;
           EvInvoke 0 4; EvQuit]) ∧
  (∀ w, step (StepW w) main_stuck = None) ∧
  step StepD main_stuck = None ∧
  (∀ k, step (StepC k) main_stuck = None).
Proof.
  split; [vm_compute; reflexivity|]. split; [|split].
  - intros [|[|[|[|w]]]]; reflexivity.
  - reflexivity.
  - intros [|k]; reflexivity.
Qed.

(** C4: the store to [quit_] of line 58 is made without [lock_].  Here
    worker 0 owns the lock and is about to read [quit_] in the wait
    predicate; the destructor's store goes through and the lock is still
    the worker's.  In any state the store goes through the same way
    whoever owns the lock. *)
Theorem C4_quit_written_without_lock :
  run [StepW 0] (pool 1) =
    Some (pool_state (Some (Worker 0)) [WPred] [] false DLive, []) ∧
  step Destroy (pool_state (Some (Worker 0)) [WPred] [] false DLive) =
    Some (pool_state (Some (Worker 0)) [WPred] [] true (DJoin 0), [EvQuit]) ∧
  (∀ (s : system nat) l,
     step Destroy (set_lock l s) = prod_map (set_lock l) id <$> step Destroy s).
Proof.
  split; [vm_compute; reflexivity|]. split; [vm_compute; reflexivity|].
  apply @destroy_ignores_lock.
Qed.

Lemma C5_dispatch_effect_witness :
  [@CIdle nat] !! 0 = Some CIdle ∧
  run (submit 0 ByMove 7) (pool_state None [WBlocked; WRelock] [5] false DLive) =
    Some (notified 0 ByMove 7
            (pool_state None [WBlocked; WRelock] [5] false DLive),
          [EvCall 0 7; EvPush 0 7]).
Proof.
  split; [reflexivity|].
  apply (C5_dispatch_effect
           (pool_state None [WBlocked; WRelock] [5] false DLive) 0 ByMove 7);
    reflexivity.
Defined.

(** C6 fails as stated: with two workers, tasks 1 and 2 are popped in
    that order and task 2 begins execution first. *)
Lemma C6_counterexample : ¬ fifo_execution (pool 2).
Proof.
  intros H.
  destruct (H overtake _ _ overtake_run) as [k Hk].
  vm_compute in Hk. discriminate.
Qed.

Lemma C6_fifo_dequeue_witness :
  run shutdown_one_worker (pool 1) =
    Some (pool_state None [WDone] [2] true DDead,
          [EvCall 0 1; EvPush 0 1; EvCall 0 2; EvPush 0 2; EvQuit;
           EvPop 0 1; EvInvoke 0 1; EvJoin 0]) ∧
  pushes [EvCall 0 1; EvPush 0 1; EvCall 0 2; EvPush 0 2; EvQuit;
          EvPop 0 1; EvInvoke 0 1; EvJoin 0] =
  pops [EvCall 0 1; EvPush 0 1; EvCall 0 2; EvPush 0 2; EvQuit;
        EvPop 0 1; EvInvoke 0 1; EvJoin 0] ++ [2] ∧
  calls [EvCall 0 1; EvPush 0 1; EvCall 0 2; EvPush 0 2; EvQuit;
         EvPop 0 1; EvInvoke 0 1; EvJoin 0] =
  pushes [EvCall 0 1; EvPush 0 1; EvCall 0 2; EvPush 0 2; EvQuit;
          EvPop 0 1; EvInvoke 0 1; EvJoin 0] ++ pending [@CIdle nat] ∧
  pops [EvCall 0 1; EvPush 0 1; EvCall 0 2; EvPush 0 2; EvQuit;
        EvPop 0 1; EvInvoke 0 1; EvJoin 0] =
  invokes [EvCall 0 1; EvPush 0 1; EvCall 0 2; EvPush 0 2; EvQuit;
           EvPop 0 1; EvInvoke 0 1; EvJoin 0] ++ inflight [@WDone nat].
Proof.
  assert (run shutdown_one_worker (dispatch_queue "pool" 1 1) =
    Some (pool_state None [WDone] [2] true DDead,
          [EvCall 0 1; EvPush 0 1; EvCall 0 2; EvPush 0 2; EvQuit;
           EvPop 0 1; EvInvoke 0 1; EvJoin 0])) as Hrun
    by (vm_compute; reflexivity).
  split; [exact Hrun|].
  destruct (C6_fifo_dequeue _ _ _ _ _ _ Hrun) as (Hf & Hc & Hw).
  split; [exact Hf|]. split; [exact (Hc eq_refl)|exact (Hw eq_refl)].
Defined.

(** C7 fails as stated: three tasks are submitted to two workers and
    the pool is shut down; tasks 1 and 2 are executed, task 3 never is. *)
Lemma C7_counterexample : ¬ exactly_once (pool 2).
Proof.
  intros H.
  pose proof (H shutdown_two_workers _ _ shutdown_two_workers_run eq_refl)
    as HP.
  apply Permutation_length in HP. vm_compute in HP. discriminate.
Qed.

Lemma C7_at_most_once_witness :
  run overtake (pool 2) =
    Some (pool_state None [WRelock; WRelock] [] false DLive,
          [EvCall 0 1; EvPush 0 1; EvCall 0 2; EvPush 0 2; EvPop 0 1;
           EvPop 1 2; EvInvoke 1 2; EvInvoke 0 1]) ∧
  NoDup (invokes [EvCall 0 1; EvPush 0 1; EvCall 0 2; EvPush 0 2;
                  EvPop 0 1; EvPop 1 2; EvInvoke 1 2; EvInvoke 0 1]) ∧
  invokes [EvCall 0 1; EvPush 0 1; EvCall 0 2; EvPush 0 2; EvPop 0 1;
           EvPop 1 2; EvInvoke 1 2; EvInvoke 0 1] ≡ₚ
  pushes [EvCall 0 1; EvPush 0 1; EvCall 0 2; EvPush 0 2; EvPop 0 1;
          EvPop 1 2; EvInvoke 1 2; EvInvoke 0 1].
Proof.
  assert (run overtake (dispatch_queue "pool" 2 1) =
    Some (pool_state None [WRelock; WRelock] [] false DLive,
          [EvCall 0 1; EvPush 0 1; EvCall 0 2; EvPush 0 2; EvPop 0 1;
           EvPop 1 2; EvInvoke 1 2; EvInvoke 0 1])) as Hrun
    by (vm_compute; reflexivity).
  split; [exact Hrun|].
  destruct (C7_at_most_once _ _ _ _ _ _ Hrun) as (_ & _ & Hn & He).
  split; [|exact (He eq_refl eq_refl)].
  apply Hn. apply (bool_decide_unpack _). vm_compute. exact I.
Defined.

Lemma C9_zero_workers_witness :
  run starve (pool 0) =
    Some (pool_state None [] [1; 2; 3] false DLive,
          [EvCall 0 1; EvPush 0 1; EvCall 0 2; EvPush 0 2; EvCall 0 3;
           EvPush 0 3]) ∧
  invokes [EvCall 0 1; EvPush 0 1; EvCall 0 2; EvPush 0 2; EvCall 0 3;
           EvPush 0 3] = [] ∧
  run (submit 0 ByMove 4) (pool_state None [] [1; 2; 3] false DLive) =
    Some (pool_state None [] [1; 2; 3; 4] false DLive,
          [EvCall 0 4; EvPush 0 4]).
Proof.
  assert (run starve (dispatch_queue "pool" 0 1) =
    Some (pool_state None [] [1; 2; 3] false DLive,
          [EvCall 0 1; EvPush 0 1; EvCall 0 2; EvPush 0 2; EvCall 0 3;
           EvPush 0 3])) as Hrun
    by (vm_compute; reflexivity).
  split; [exact Hrun|].
  destruct (C9_zero_workers _ _ _ _ _ Hrun) as (_ & _ & _ & Hi & _ & Hs).
  split; [exact Hi|].
  exact (Hs 0 ByMove 4 eq_refl eq_refl).
Defined.

Lemma C10_submit_ignores_quit_witness :
  [@CIdle nat] !! 0 = Some CIdle ∧
  run (submit 0 ByCopy 9) (pool_state None [WDone] [2] true DDead) =
    Some (pool_state None [WDone] [2; 9] true DDead,
          [EvCall 0 9; EvPush 0 9]).
Proof.
  split; [reflexivity|].
  apply (C10_submit_ignores_quit
           (pool_state None [WDone] [2] true DDead) 0 ByCopy 9 true);
    reflexivity.
Defined.

(** * Further properties of the code *)

Ltac look :=
  repeat match goal with
  | H : <[_ := _]> _ !! _ = Some _ |- _ =>
      apply list_lookup_insert_Some in H as [(? & ? & ?) | (? & ?)]
  | H : notify_all _ !! _ = Some _ |- _ =>
      apply lookup_notify_all in H as (? & ? & ?)
  end; simplify_eq.

Section Further.
Context {fp_t : Type}.
Implicit Types (s : system fp_t) (evs e : list (event fp_t))
  (a : action fp_t) (acts : list (action fp_t))
  (ws : list (wpc fp_t)) (cs : list (cpc fp_t)).

(** ** The mutex *)

Lemma lookup_insert_same {A} (l : list A) i x y :
  l !! i = Some y → <[i:=x]> l !! i = Some x.
Proof. intros H. apply list_lookup_insert_eq. by eapply lookup_lt_Some. Qed.

Lemma lookup_notify_all_Some ws w pc :
  ws !! w = Some pc → notify_all ws !! w = Some (wake pc).
Proof. intros H. unfold notify_all. by rewrite list_lookup_fmap, H. Qed.

Lemma wake_blocked (pc : wpc fp_t) : wake pc ≠ WBlocked.
Proof. by destruct pc. Qed.

Lemma owner_inv_step s a s' e :
  lock_inv s → owner_inv s → step a s = Some (s', e) → owner_inv s'.
Proof.
  intros [Hw Hc] HI Hs. unfold owner_inv, in_critical_section in *.
  step_inv Hs; simpl in *; try done.
  all: try (eexists; split; [by eapply lookup_insert_same|done]).
  all: destruct (lock_ s) as [[wo|ko]|] eqn:Hl; try done.
  all: destruct HI as (pc0 & Hpc0 & Hh0).
  all: try (exists pc0; split; [|done]; rewrite list_lookup_insert_ne; [done|];
            intros ->; by simplify_eq/=).
  all: exists (wake pc0); split;
    [by apply lookup_notify_all_Some | by rewrite holds_w_wake].
Qed.

Lemma owner_inv_run name n K acts s evs :
  run acts (dispatch_queue name n K) = Some (s, evs) →
  lock_inv s ∧ owner_inv s.
Proof.
  apply (run_invariant_init (λ s _, lock_inv s ∧ owner_inv s)).
  - split; [apply lock_inv_init|done].
  - intros s1 _ a s2 e [H1 H2] Hs.
    split; [by eapply lock_inv_step|by eapply owner_inv_step].
Qed.

(** X1.  Along every run from a fresh pool, a thread (worker or caller)
    is inside a critical section exactly when it is the owner of
    [lock_]; so two threads are never inside critical sections at the
    same time. *)
Theorem X1_mutual_exclusion name n K acts s evs :
  run acts (dispatch_queue name n K) = Some (s, evs) →
  (∀ t, in_critical_section s t ↔ lock_ s = Some t) ∧
  (∀ t1 t2, in_critical_section s t1 → in_critical_section s t2 → t1 = t2).
Proof.
  intros Hrun. destruct (owner_inv_run _ _ _ _ _ _ Hrun) as [[Hw Hc] Ho].
  assert (∀ t, in_critical_section s t ↔ lock_ s = Some t) as Hiff.
  { intros t. split.
    - destruct t as [w|k]; intros (pc & Hl & Hh); eauto.
    - intros Hl. unfold owner_inv in Ho. by rewrite Hl in Ho. }
  split; [done|].
  intros t1 t2 H1%Hiff H2%Hiff. congruence.
Qed.

Lemma lock_holder_runs name n K acts s evs t :
  run acts (dispatch_queue name n K) = Some (s, evs) →
  lock_ s = Some t →
  ∃ s' e, step (thread_step t) s = Some (s', e) ∧ invokes e = [].
Proof.
  intros Hrun Hl. destruct (owner_inv_run _ _ _ _ _ _ Hrun) as [_ Ho].
  unfold owner_inv in Ho. rewrite Hl in Ho.
  destruct t as [w|k]; destruct Ho as (pc & Hpc & Hh); simpl; rewrite Hpc; simpl.
  - destruct pc; simplify_eq/=; try (by eauto).
    + destruct (wait_pred s); eauto.
    + destruct (q_ s); eauto.
  - unfold dispatch. destruct pc as [|[]|[]|[]|[]]; simplify_eq/=; eauto.
Qed.

(** X2.  Along every run from a fresh pool, the thread that owns
    [lock_] can always execute its next statement, and that statement
    is never the call of a task: nothing waits, and no task runs, with
    the mutex held. *)
Theorem X2_lock_holder_runs name n K acts s evs t :
  run acts (dispatch_queue name n K) = Some (s, evs) →
  lock_ s = Some t →
  ∃ s' e, step (thread_step t) s = Some (s', e) ∧ invokes e = [].
Proof. apply lock_holder_runs. Qed.

(** ** The wait *)

(** X3.  Along every run from a fresh pool, a worker for which
    [cv_.wait] has returned while [quit_] is not set finds a task: the
    test of line 105 succeeds and the worker pops the front of the
    queue. *)
Theorem X3_wait_returns_with_task name n K acts s evs w :
  run acts (dispatch_queue name n K) = Some (s, evs) →
  threads_ s !! w = Some WTest → quit_ s = false →
  ∃ op rest, q_ s = op :: rest ∧
    step (StepW w) s =
      Some (set_thread w (WUnlock op) (set_q rest s), [EvPop w op]).
Proof.
  intros Hrun Hw Hq. destruct (inv_run _ _ _ _ _ _ Hrun) as [_ Hwait _ _ _ _].
  specialize (Hwait _ Hw). unfold wait_pred in Hwait. rewrite Hq in Hwait.
  destruct (q_ s) as [|op rest] eqn:Hqs; [done|].
  exists op, rest. split; [done|].
  rewrite (step_worker _ _ _ Hw). simpl. by rewrite Hqs.
Qed.

(** X4.  A spurious wake-up is harmless: a waiting worker that is woken
    while the predicate [q_.size() || quit_] is false takes the lock,
    evaluates the predicate and waits again; the pool is back in the
    same state and nothing was observed. *)
Theorem X4_spurious_wakeup_harmless s w :
  threads_ s !! w = Some WBlocked → lock_ s = None → wait_pred s = false →
  run [Spurious w; StepW w; StepW w] s = Some (s, []).
Proof.
  intros Hw Hl Hp.
  assert (w < length (threads_ s)) as Hlt by (by eapply lookup_lt_Some).
  assert (step (Spurious w) s = Some (set_thread w WWoken s, [])) as H1.
  { simpl. by rewrite Hw. }
  assert (step (StepW w) (set_thread w WWoken s) =
          Some (set_thread w WPred (set_lock (Some (Worker w)) s), [])) as H2.
  { rewrite (step_worker _ w WWoken) by (by apply list_lookup_insert_eq).
    simpl. unfold acquire. simpl. rewrite Hl. simpl. f_equal. f_equal.
    unfold set_thread, set_threads, set_lock. simpl.
    by rewrite list_insert_insert_eq. }
  assert (step (StepW w) (set_thread w WPred (set_lock (Some (Worker w)) s)) =
          Some (s, [])) as H3.
  { rewrite (step_worker _ w WPred) by (by apply list_lookup_insert_eq).
    simpl. unfold wait_pred in *. simpl. rewrite Hp. f_equal. f_equal.
    destruct s as [nm lk ws q qt cs ow]; simpl in *; subst lk.
    unfold set_thread, set_threads, set_lock. simpl. f_equal.
    rewrite list_insert_insert_eq. by apply list_insert_id. }
  rewrite (run_cons _ _ _ _ _ H1), (run_cons _ _ _ _ _ H2),
    (run_cons _ _ _ _ _ H3). done.
Qed.

Lemma wake_sources s a s' e w :
  step a s = Some (s', e) →
  threads_ s !! w = Some WBlocked → threads_ s' !! w ≠ Some WBlocked →
  threads_ s' !! w = Some WWoken ∧
  (a = Spurious w ∨
   ∃ k pc, a = StepC k ∧ callers s !! k = Some pc ∧ notifying pc = true).
Proof.
  intros Hs Hw Hw'.
  step_inv Hs; simpl in *; try done.
  all: try (split; [by rewrite (lookup_notify_all_Some _ _ _ Hw)|];
            right; by eauto).
  all: match goal with
       | H : context [<[?w0 := _]> _] |- _ =>
           destruct (decide (w0 = w)) as [->|Hne]; simplify_eq;
           try (by rewrite list_lookup_insert_ne in Hw')
       end.
  split; [by eapply list_lookup_insert_eq, lookup_lt_Some|by left].
Qed.

(** X5.  A worker leaves the wait set only by a spurious wake-up or by
    the [notify_all] of a call of [dispatch]; it is then about to take
    the lock again.  No statement of a worker or of the destructor
    wakes a waiting worker. *)
Theorem X5_who_wakes s a s' e w :
  step a s = Some (s', e) →
  threads_ s !! w = Some WBlocked → threads_ s' !! w ≠ Some WBlocked →
  threads_ s' !! w = Some WWoken ∧
  (a = Spurious w ∨
   ∃ k pc, a = StepC k ∧ callers s !! k = Some pc ∧ notifying pc = true).
Proof. apply wake_sources. Qed.

Lemma keep_notifier cs k0 pc0 k pc pc' :
  cs !! k0 = Some pc0 → will_notify pc0 = true →
  cs !! k = Some pc → will_notify pc = false →
  ∃ k1 pc1, <[k:=pc']> cs !! k1 = Some pc1 ∧ will_notify pc1 = true.
Proof.
  intros H0 Hn0 Hk Hn. exists k0, pc0. split; [|done].
  rewrite list_lookup_insert_ne; [done|]. intros ->. congruence.
Qed.

Lemma wakeup_inv_step s a s' e :
  wakeup_inv s → step a s = Some (s', e) → wakeup_inv s'.
Proof.
  intros HI Hs w' Hw' Hq'. unfold wakeup_inv in *.
  step_inv Hs; simpl in *; look; simpl in *; try done; eauto.
  all: try (by (exfalso; eapply wake_blocked; eauto)).
  all: try (by (eexists k, _; split;
                [eapply list_lookup_insert_eq, lookup_lt_Some; eauto|done])).
  all: try (by (destruct (HI _ Hw' Hq') as (k0 & pc0 & ? & ?);
                eapply keep_notifier; eauto)).
  unfold wait_pred in *. by destruct (q_ s).
Qed.

Lemma wakeup_inv_run name n K acts s evs :
  run acts (dispatch_queue name n K) = Some (s, evs) → wakeup_inv s.
Proof.
  apply (run_invariant_init (λ s _, wakeup_inv s)).
  - intros w [? _]%lookup_replicate. done.
  - intros. by eapply wakeup_inv_step.
Qed.

(** X6.  No wake-up is lost on a push.  Along every run from a fresh
    pool, if a worker is in the wait set while the queue is not empty,
    then some caller has pushed and has its [notify_all] still to come
    (it is at the unlock or at the notify of [dispatch]). *)
Theorem X6_no_lost_wakeup name n K acts s evs w :
  run acts (dispatch_queue name n K) = Some (s, evs) →
  threads_ s !! w = Some WBlocked → q_ s ≠ [] →
  ∃ k pc, callers s !! k = Some pc ∧ will_notify pc = true.
Proof. intros Hrun. by apply (wakeup_inv_run _ _ _ _ _ _ Hrun). Qed.

(** X7.  The pool does not get stuck with work pending.  Along every
    run from a fresh pool, if a task is queued and some worker has not
    returned, then a worker, or a caller in the middle of a call, can
    execute its next statement; no spurious wake-up is needed. *)
Theorem X7_pending_work_not_stuck name n K acts s evs w pc :
  run acts (dispatch_queue name n K) = Some (s, evs) →
  q_ s ≠ [] → threads_ s !! w = Some pc → pc ≠ WDone →
  ∃ t s' e, step (thread_step t) s = Some (s', e).
Proof.
  intros Hrun Hq Hw Hpc.
  destruct (lock_ s) as [t|] eqn:Hl.
  { destruct (lock_holder_runs _ _ _ _ _ _ _ Hrun Hl) as (s' & e & Hs & _).
    by exists t, s', e. }
  destruct (owner_inv_run _ _ _ _ _ _ Hrun) as [[Hlw Hlc] _].
  assert (holds_w pc = false) as Hh.
  { destruct (holds_w pc) eqn:Hh; [|done].
    specialize (Hlw _ _ Hw Hh). congruence. }
  destruct pc; simplify_eq/=.
  - exists (Worker w). simpl. rewrite Hw. simpl. unfold acquire.
    rewrite Hl. simpl. eauto.
  - destruct (wakeup_inv_run _ _ _ _ _ _ Hrun _ Hw Hq) as (k & pck & Hk & Hn).
    exists (Caller k). simpl. rewrite Hk. simpl. unfold dispatch.
    destruct pck as [|[]|[]|[]|[]]; simplify_eq/=; eauto.
    all: specialize (Hlc _ _ Hk eq_refl); congruence.
  - exists (Worker w). simpl. rewrite Hw. simpl. unfold acquire.
    rewrite Hl. simpl. eauto.
  - exists (Worker w). simpl. rewrite Hw. simpl. eauto.
  - exists (Worker w). simpl. rewrite Hw. simpl. unfold acquire.
    rewrite Hl. simpl. eauto.
Qed.

(** ** Shutdown *)

Lemma quit_count_app evs e :
  quit_count (evs ++ e) = quit_count evs + quit_count e.
Proof. induction evs as [|[] evs IH]; simpl; lia. Qed.

Lemma quit_once_step s evs a s' e :
  quit_once_inv s evs → step a s = Some (s', e) →
  quit_once_inv s' (evs ++ e).
Proof.
  intros [Ho Hc] Hs. unfold quit_once_inv. rewrite quit_count_app, Hc.
  step_inv Hs; simpl; rewrite ?Nat.add_0_r; try done.
  all: destruct Ho as [Ho1 Ho2];
    try (by specialize (Ho2 eq_refl)); by specialize (Ho1 eq_refl).
Qed.

(** X8.  Along every run from a fresh pool, [quit_] is false exactly as
    long as the destructor has not been entered, and it is stored to at
    most once: once set it stays set. *)
Theorem X8_quit_set_once name n K acts s evs :
  run acts (dispatch_queue name n K) = Some (s, evs) →
  (quit_ s = false ↔ owner s = DLive) ∧
  quit_count evs = (if quit_ s then 1 else 0).
Proof.
  apply (run_invariant_init quit_once_inv); [done|].
  intros. by eapply quit_once_step.
Qed.

Lemma joins_app evs e : joins (evs ++ e) = joins evs ++ joins e.
Proof. apply flat_map_app. Qed.

Lemma join_order_step s evs a s' e :
  join_order_inv s evs → step a s = Some (s', e) →
  join_order_inv s' (evs ++ e).
Proof.
  intros HI Hs. unfold join_order_inv in *. rewrite joins_app.
  step_inv Hs; simpl in *;
    rewrite ?app_nil_r, ?length_insert, ?length_notify_all; try done.
  - split; [lia|done].
  - destruct HI as [Hle ->]. split.
    + by eapply lookup_lt_Some.
    + change (0 :: seq 1 i) with (seq 0 (S i)). by rewrite seq_S.
  - destruct HI as [Hle ->].
    match goal with H : _ !! i = None |- _ => apply lookup_ge_None in H end.
    f_equal. lia.
Qed.

(** X9.  The destructor joins the workers in the order of their
    creation, each once: when its loop is at index [i] it has joined
    exactly the threads [0 .. i-1], and when it has returned it has
    joined all [n] of them. *)
Theorem X9_joins_in_creation_order name n K acts s evs :
  run acts (dispatch_queue name n K) = Some (s, evs) →
  match owner s with
  | DLive => joins evs = []
  | DJoin i => i ≤ n ∧ joins evs = seq 0 i
  | DDead => joins evs = seq 0 n
  end.
Proof.
  intros Hrun.
  destruct (length_run _ _ _ _ Hrun) as [Hlen _]. simpl in Hlen.
  rewrite length_replicate in Hlen. rewrite <- Hlen.
  revert Hrun. apply (run_invariant_init join_order_inv); [done|].
  intros. by eapply join_order_step.
Qed.

(** X10.  A batch no larger than the pool is drained.  If the
    destructor has returned, no task was pushed after [quit_] was set,
    and at most [n] tasks were pushed to the [n] workers, then the queue
    is empty and every pushed task has been executed, once. *)
Theorem X10_small_batch_is_drained name n K acts s evs :
  run acts (dispatch_queue name n K) = Some (s, evs) →
  owner s = DDead →
  pushes (after_quit evs) = [] →
  length (pushes evs) ≤ n →
  q_ s = [] ∧ invokes evs ≡ₚ pushes evs.
Proof. apply small_batch_drained. Qed.

(** ** The program's [main] *)

Lemma step_env s a s' e :
  step a s = Some (s', e) →
  if by_main a
  then env_step (length (threads_ s)) a (callers s, owner s) =
         Some ((callers s', owner s'), e) ∧ main_events e = e
  else callers s' = callers s ∧ owner s' = owner s ∧ main_events e = [].
Proof.
  intros Hs.
  step_inv Hs; simpl; rewrite ?Heqo, ?H, ?H0; simpl; try done.
  - match goal with H : _ !! _ = None |- _ => apply lookup_ge_None in H end.
    lia.
  - match goal with H : _ !! _ = Some _ |- _ => apply lookup_lt_Some in H end.
    lia.
Qed.

Lemma main_events_app evs e :
  main_events (evs ++ e) = main_events evs ++ main_events e.
Proof. apply List.filter_app. Qed.

(** What the environment's threads do in a run of the pool is a run of
    these threads on their own, whatever the workers do in between. *)
Lemma run_env acts s s' evs :
  run acts s = Some (s', evs) →
  env_run (length (threads_ s)) (List.filter by_main acts)
    (callers s, owner s) =
    Some ((callers s', owner s'), main_events evs).
Proof.
  revert s evs. induction acts as [|a acts IH]; intros s evs Hrun; simpl in *.
  - by simplify_eq.
  - destruct (step a s) as [[s1 e1]|] eqn:Hs; [|done].
    destruct (run acts s1) as [[s2 e2]|] eqn:Hr; [|done]. simplify_eq.
    pose proof (step_env _ _ _ _ Hs) as He.
    pose proof (IH _ _ Hr) as IH'.
    destruct (length_step _ _ _ _ Hs) as [Hlen _]. rewrite Hlen in IH'.
    rewrite main_events_app.
    cbn [List.filter]. destruct (by_main a).
    + cbn [env_run]. destruct He as [-> ->]. by rewrite IH'.
    + destruct He as (Hc & Ho & ->). by rewrite <- Hc, <- Ho.
Qed.

Lemma pushes_main_events evs : pushes (main_events evs) = pushes evs.
Proof. induction evs as [|[] evs IH]; simpl; try done. by f_equal. Qed.

Lemma after_quit_main_events evs :
  main_events (after_quit evs) = after_quit (main_events evs).
Proof. induction evs as [|[] evs IH]; simpl; try done. Qed.

(** ** Producers, and what is left behind *)

Lemma calls_by_app k evs e :
  calls_by k (evs ++ e) = calls_by k evs ++ calls_by k e.
Proof. apply flat_map_app. Qed.

Lemma pushes_by_app k evs e :
  pushes_by k (evs ++ e) = pushes_by k evs ++ pushes_by k e.
Proof. apply flat_map_app. Qed.

Lemma unpushed_at_insert cs k k0 pc :
  k0 < length cs →
  unpushed_at (<[k0:=pc]> cs) k =
  if decide (k0 = k) then unpushed pc else unpushed_at cs k.
Proof.
  intros Hlt. unfold unpushed_at. case_decide as Hk.
  - subst. by rewrite list_lookup_insert_eq.
  - by rewrite list_lookup_insert_ne.
Qed.

Lemma producer_order_step k s evs a s' e :
  calls_by k evs = pushes_by k evs ++ unpushed_at (callers s) k →
  step a s = Some (s', e) →
  calls_by k (evs ++ e) =
  pushes_by k (evs ++ e) ++ unpushed_at (callers s') k.
Proof.
  intros HI Hs. rewrite calls_by_app, pushes_by_app.
  step_inv Hs; simpl; rewrite ?app_nil_r; try done.
  all: try (unfold notify_all; simpl; done).
  all: match goal with
       | H : callers _ !! ?k0 = Some _ |- _ =>
           rewrite unpushed_at_insert by (by eapply lookup_lt_Some);
           pose proof H as Hk0
       end.
  all: case_decide; simplify_eq; simpl; rewrite ?app_nil_r; try done.
  all: unfold unpushed_at in HI;
    match goal with
    | H : callers _ !! _ = Some _ |- _ => rewrite H in HI
    end; simpl in HI; rewrite ?app_nil_r in HI; rewrite HI;
    by rewrite <- ?(assoc_L (++)).
Qed.

Lemma pushes_by_sublist k evs : pushes_by k evs `sublist_of` pushes evs.
Proof.
  induction evs as [|[] evs IH]; simpl; try done.
  case_decide; simpl; [by constructor|by apply sublist_cons].
Qed.

(** X12.  With any number of producers, the tasks of each producer enter
    the queue in the order in which that producer submitted them, one
    push per call; and they keep that order among the tasks popped and
    queued. *)
Theorem X12_per_producer_order name n K acts s evs k :
  run acts (dispatch_queue name n K) = Some (s, evs) →
  calls_by k evs = pushes_by k evs ++ unpushed_at (callers s) k ∧
  pushes_by k evs `sublist_of` pops evs ++ q_ s.
Proof.
  intros Hrun. split.
  - revert Hrun. apply (run_invariant_init
      (λ s evs, calls_by k evs = pushes_by k evs ++ unpushed_at (callers s) k)).
    + simpl. unfold unpushed_at.
      destruct (replicate K CIdle !! k) as [pc|] eqn:Hl; [|done].
      by apply lookup_replicate in Hl as [-> _].
    + intros. by eapply producer_order_step.
  - destruct (inv_run _ _ _ _ _ _ Hrun) as [_ _ _ _ <- _].
    apply pushes_by_sublist.
Qed.

Lemma all_done_step s a s' e :
  all_done (threads_ s) → step a s = Some (s', e) →
  all_done (threads_ s') ∧ pops e = [] ∧ invokes e = [] ∧
  q_ s `prefix_of` q_ s'.
Proof.
  intros Hd Hs.
  step_inv Hs; simpl; try done.
  all: try match goal with
       | H : threads_ _ !! _ = Some _ |- _ => by pose proof (Hd _ _ H)
       end.
  all: repeat split; try done; try (by apply prefix_app_r).
  all: intros w pc (pc0 & Hl & ->)%lookup_notify_all; by rewrite (Hd _ _ Hl).
Qed.

(** X14.  Once every worker has returned, nothing is popped or executed
    any more, whatever happens next: the tasks that are in the queue
    stay there, and tasks submitted later are only added behind them. *)
Theorem X14_nothing_runs_after_workers_return acts s s' e :
  all_done (threads_ s) → run acts s = Some (s', e) →
  all_done (threads_ s') ∧ pops e = [] ∧ invokes e = [] ∧
  q_ s `prefix_of` q_ s'.
Proof.
  intros Hd Hrun.
  cut (all_done (threads_ s') ∧ pops ([] ++ e) = [] ∧
       invokes ([] ++ e) = [] ∧ q_ s `prefix_of` q_ s'); [done|].
  eapply (run_invariant (λ s1 e1, all_done (threads_ s1) ∧ pops e1 = [] ∧
            invokes e1 = [] ∧ q_ s `prefix_of` q_ s1)); [|..|exact Hrun]; [|done].
  intros s1 e1 a s2 e2 (Hd1 & Hp & Hi & Hq) Hs.
  destruct (all_done_step _ _ _ _ Hd1 Hs) as (? & Hp2 & Hi2 & Hq2).
  rewrite pops_app, invokes_app, Hp, Hi, Hp2, Hi2.
  repeat split; try done. by etrans.
Qed.

Lemma blocked_stays s a s' e w :
  quiet a = true → step a s = Some (s', e) →
  threads_ s !! w = Some WBlocked → threads_ s' !! w = Some WBlocked.
Proof.
  intros Hq Hs Hw.
  destruct (threads_ s' !! w) as [pc|] eqn:Hw'.
  - destruct pc; try done.
    all: destruct (wake_sources _ _ _ _ _ Hs Hw) as [_ [->|(k & pc & -> & _)]];
      by rewrite ?Hw'.
  - destruct (wake_sources _ _ _ _ _ Hs Hw) as [_ [->|(k & pc & -> & _)]];
      by rewrite ?Hw'.
Qed.

(** X15.  The destructor cannot get past a waiting worker.  From any
    state reached by a fresh pool in which a worker is in the wait set,
    whatever the workers and the destructor do, as long as no call of
    [dispatch] notifies and the wait does not wake up spuriously, that
    worker stays in the wait set and the destructor does not return. *)
Theorem X15_destructor_waits_for_ever name n K acts0 s evs0 w acts s' e :
  run acts0 (dispatch_queue name n K) = Some (s, evs0) →
  threads_ s !! w = Some WBlocked →
  Forall (λ a, quiet a = true) acts →
  run acts s = Some (s', e) →
  threads_ s' !! w = Some WBlocked ∧ owner s' ≠ DDead.
Proof.
  intros Hrun0 Hw Hquiet Hrun.
  destruct (inv_run _ _ _ _ _ _ Hrun0) as [_ _ Hjoin _ _ _]. clear Hrun0.
  revert s e Hw Hjoin Hrun.
  induction Hquiet as [|a acts Ha _ IH]; intros s e Hw Hjoin Hrun;
    simpl in Hrun.
  - simplify_eq. split; [done|]. intros Ho. unfold join_inv in Hjoin.
    rewrite Ho in Hjoin. by specialize (Hjoin _ _ Hw).
  - destruct (step a s) as [[s1 e1]|] eqn:Hs; [|done].
    destruct (run acts s1) as [[s2 e2]|] eqn:Hr; [|done]. simplify_eq.
    eapply IH; [|by eapply join_inv_step|exact Hr].
    by eapply blocked_stays.
Qed.

End Further.

(** X11.  The program's [main]: in every run in which [main] has
    executed all its statements, with the four workers and the wait
    scheduled in any way in between, the destructor has returned, the
    queue is empty, and each of the four tasks has been pushed and
    executed, once. *)
Theorem X11_main_runs_every_task acts s evs :
  List.filter by_main acts = main_program →
  run acts main_pool = Some (s, evs) →
  owner s = DDead ∧ q_ s = [] ∧ pushes evs = [1; 2; 3; 4] ∧
  invokes evs ≡ₚ [1; 2; 3; 4].
Proof.
  intros Hf Hrun. pose proof (run_env _ _ _ _ Hrun) as He. rewrite Hf in He.
  assert (env_run (length (threads_ main_pool)) main_program
            (callers main_pool, owner main_pool) =
          Some (([CIdle], DDead),
                [EvCall 0 1; EvPush 0 1; EvCall 0 2; EvPush 0 2; EvCall 0 3;
                 EvPush 0 3; EvCall 0 4; EvPush 0 4; EvQuit; EvJoin 0;
                 EvJoin 1; EvJoin 2; EvJoin 3])) as Hc
    by (vm_compute; reflexivity).
  rewrite Hc in He. injection He as Hcs Ho Hev.
  assert (pushes evs = [1; 2; 3; 4]) as Hp.
  { by rewrite <- pushes_main_events, <- Hev. }
  assert (pushes (after_quit evs) = []) as Hnp.
  { by rewrite <- pushes_main_events, after_quit_main_events, <- Hev. }
  assert (length (pushes evs) ≤ 4) as Hle by (rewrite Hp; simpl; lia).
  destruct (small_batch_drained _ _ _ _ _ _ Hrun (eq_sym Ho) Hnp Hle)
    as [Hq Hi].
  rewrite Hp in Hi. done.
Qed.

(** ** The further properties on concrete pools *)

Lemma X1_mutual_exclusion_witness :
  run quit_while_running (pool 1) =
    Some (pool_state (Some (Worker 0)) [WCond] [2] true (DJoin 0),
          [EvCall 0 1; EvPush 0 1; EvCall 0 2; EvPush 0 2; EvPop 0 1;
           EvQuit; EvInvoke 0 1]) ∧
  in_critical_section
    (pool_state (Some (Worker 0)) [WCond] [2] true (DJoin 0)) (Worker 0).
Proof.
  assert (run quit_while_running (dispatch_queue "pool" 1 1) =
    Some (pool_state (Some (Worker 0)) [WCond] [2] true (DJoin 0),
          [EvCall 0 1; EvPush 0 1; EvCall 0 2; EvPush 0 2; EvPop 0 1;
           EvQuit; EvInvoke 0 1])) as Hrun
    by (vm_compute; reflexivity).
  split; [exact Hrun|].
  apply (proj1 (X1_mutual_exclusion _ _ _ _ _ _ Hrun)). reflexivity.
Defined.

Lemma X2_lock_holder_runs_witness :
  ∃ s' e,
    step (StepW 0) (pool_state (Some (Worker 0)) [WCond] [2] true (DJoin 0)) =
      Some (s', e) ∧ invokes e = [].
Proof.
  assert (run quit_while_running (dispatch_queue "pool" 1 1) =
    Some (pool_state (Some (Worker 0)) [WCond] [2] true (DJoin 0),
          [EvCall 0 1; EvPush 0 1; EvCall 0 2; EvPush 0 2; EvPop 0 1;
           EvQuit; EvInvoke 0 1])) as Hrun
    by (vm_compute; reflexivity).
  apply (X2_lock_holder_runs _ _ _ _ _ _ (Worker 0) Hrun). reflexivity.
Defined.

Lemma X3_wait_returns_with_task_witness :
  ∃ op rest,
    [1] = op :: rest ∧
    step (StepW 0) (pool_state (Some (Worker 0)) [WTest] [1] false DLive) =
      Some (set_thread 0 (WUnlock op)
              (set_q rest
                 (pool_state (Some (Worker 0)) [WTest] [1] false DLive)),
            [EvPop 0 op]).
Proof.
  assert (run woken_with_task (dispatch_queue "pool" 1 1) =
    Some (pool_state (Some (Worker 0)) [WTest] [1] false DLive,
          [EvCall 0 1; EvPush 0 1])) as Hrun
    by (vm_compute; reflexivity).
  apply (X3_wait_returns_with_task _ _ _ _ _ _ 0 Hrun); reflexivity.
Defined.

Lemma X4_spurious_wakeup_harmless_witness :
  run [Spurious 0; StepW 0; StepW 0]
    (pool_state None [WBlocked] [] false DLive) =
  Some (pool_state None [WBlocked] [] false DLive, []).
Proof.
  apply (X4_spurious_wakeup_harmless
           (pool_state None [WBlocked] [] false DLive) 0); reflexivity.
Defined.

Lemma X5_who_wakes_witness :
  step (Spurious 0) (pool_state None [WBlocked] [] false DLive) =
    Some (pool_state None [WWoken] [] false DLive, []) ∧
  [@WWoken nat] !! 0 = Some WWoken.
Proof.
  assert (step (Spurious 0) (pool_state None [WBlocked] [] false DLive) =
    Some (pool_state None [WWoken] [] false DLive, [])) as Hs
    by (vm_compute; reflexivity).
  split; [exact Hs|].
  apply (X5_who_wakes _ _ _ _ 0 Hs).
  - reflexivity.
  - vm_compute. discriminate.
Defined.

Lemma X6_no_lost_wakeup_witness :
  run push_to_idle (pool 1) =
    Some ({| name_ := "pool"; lock_ := Some (Caller 0);
             threads_ := [WBlocked]; q_ := [1]; quit_ := false;
             callers := [CUnlock ByMove None]; owner := DLive |},
          [EvCall 0 1; EvPush 0 1]) ∧
  ∃ k pc, [@CUnlock nat ByMove None] !! k = Some pc ∧ will_notify pc = true.
Proof.
  assert (run push_to_idle (dispatch_queue "pool" 1 1) =
    Some ({| name_ := "pool"; lock_ := Some (Caller 0);
             threads_ := [WBlocked]; q_ := [1]; quit_ := false;
             callers := [CUnlock ByMove None]; owner := DLive |},
          [EvCall 0 1; EvPush 0 1])) as Hrun
    by (vm_compute; reflexivity).
  split; [exact Hrun|].
  apply (X6_no_lost_wakeup _ _ _ _ _ _ 0 Hrun).
  - reflexivity.
  - vm_compute. discriminate.
Defined.

Lemma X7_pending_work_not_stuck_witness :
  ∃ t s' e,
    step (thread_step t)
      {| name_ := "pool"; lock_ := Some (Caller 0);
         threads_ := [@WBlocked nat]; q_ := [1]; quit_ := false;
         callers := [CUnlock ByMove None]; owner := DLive |} = Some (s', e).
Proof.
  assert (run push_to_idle (dispatch_queue "pool" 1 1) =
    Some ({| name_ := "pool"; lock_ := Some (Caller 0);
             threads_ := [WBlocked]; q_ := [1]; quit_ := false;
             callers := [CUnlock ByMove None]; owner := DLive |},
          [EvCall 0 1; EvPush 0 1])) as Hrun
    by (vm_compute; reflexivity).
  apply (X7_pending_work_not_stuck _ _ _ _ _ _ 0 WBlocked Hrun).
  - vm_compute. discriminate.
  - reflexivity.
  - discriminate.
Defined.

Lemma X8_quit_set_once_witness :
  (true = false ↔ DDead = DLive) ∧
  quit_count [EvCall 0 1; EvPush 0 1; EvCall 0 2; EvPush 0 2; EvQuit;
              EvPop 0 1; EvInvoke 0 1; EvJoin 0] = 1.
Proof.
  assert (run shutdown_one_worker (dispatch_queue "pool" 1 1) =
    Some (pool_state None [WDone] [2] true DDead,
          [EvCall 0 1; EvPush 0 1; EvCall 0 2; EvPush 0 2; EvQuit;
           EvPop 0 1; EvInvoke 0 1; EvJoin 0])) as Hrun
    by (vm_compute; reflexivity).
  exact (X8_quit_set_once _ _ _ _ _ _ Hrun).
Defined.

Lemma X9_joins_in_creation_order_witness :
  joins [EvCall 0 1; EvPush 0 1; EvCall 0 2; EvPush 0 2; EvCall 0 3;
         EvPush 0 3; EvPop 0 1; EvPop 1 2; EvQuit; EvInvoke 0 1;
         EvInvoke 1 2; EvJoin 0; EvJoin 1] = [0; 1].
Proof.
  assert (run shutdown_two_workers (dispatch_queue "pool" 2 1) =
    Some (pool_state None [WDone; WDone] [3] true DDead,
          [EvCall 0 1; EvPush 0 1; EvCall 0 2; EvPush 0 2; EvCall 0 3;
           EvPush 0 3; EvPop 0 1; EvPop 1 2; EvQuit; EvInvoke 0 1;
           EvInvoke 1 2; EvJoin 0; EvJoin 1])) as Hrun
    by (vm_compute; reflexivity).
  exact (X9_joins_in_creation_order _ _ _ _ _ _ Hrun).
Defined.

Lemma X10_small_batch_is_drained_witness :
  @nil nat = [] ∧
  invokes [EvCall 0 1; EvPush 0 1; EvQuit; EvPop 0 1; EvInvoke 0 1;
           EvJoin 0] ≡ₚ
  pushes [EvCall 0 1; EvPush 0 1; EvQuit; EvPop 0 1; EvInvoke 0 1;
          EvJoin 0].
Proof.
  assert (run shutdown_one_task (dispatch_queue "pool" 1 1) =
    Some (pool_state None [WDone] [] true DDead,
          [EvCall 0 1; EvPush 0 1; EvQuit; EvPop 0 1; EvInvoke 0 1;
           EvJoin 0])) as Hrun
    by (vm_compute; reflexivity).
  apply (X10_small_batch_is_drained _ _ _ _ _ _ Hrun).
  - reflexivity.
  - reflexivity.
  - vm_compute. lia.
Defined.

Lemma X11_main_runs_every_task_witness :
  ∃ s evs,
    run main_complete main_pool = Some (s, evs) ∧
    owner s = DDead ∧ q_ s = [] ∧ pushes evs = [1; 2; 3; 4] ∧
    invokes evs ≡ₚ [1; 2; 3; 4].
Proof.
  eexists _, _. split; [vm_compute; reflexivity|].
  apply (X11_main_runs_every_task main_complete).
  - vm_compute. reflexivity.
  - vm_compute. reflexivity.
Defined.

Lemma X12_per_producer_order_witness :
  calls_by 0 [EvCall 0 1; EvPush 0 1; EvCall 0 2; EvPush 0 2; EvPop 0 1;
              EvPop 1 2; EvInvoke 1 2; EvInvoke 0 1] =
  pushes_by 0 [EvCall 0 1; EvPush 0 1; EvCall 0 2; EvPush 0 2; EvPop 0 1;
               EvPop 1 2; EvInvoke 1 2; EvInvoke 0 1] ++
  unpushed_at [@CIdle nat] 0.
Proof.
  assert (run overtake (dispatch_queue "pool" 2 1) =
    Some (pool_state None [WRelock; WRelock] [] false DLive,
          [EvCall 0 1; EvPush 0 1; EvCall 0 2; EvPush 0 2; EvPop 0 1;
           EvPop 1 2; EvInvoke 1 2; EvInvoke 0 1])) as Hrun
    by (vm_compute; reflexivity).
  exact (proj1 (X12_per_producer_order _ _ _ _ _ _ 0 Hrun)).
Defined.

Lemma X14_nothing_runs_after_workers_return_witness :
  all_done [@WDone nat] ∧ pops [EvCall 0 9; EvPush 0 9] = [] ∧
  invokes [EvCall 0 9; EvPush 0 9] = [] ∧ [2] `prefix_of` [2; 9].
Proof.
  assert (all_done (threads_ (pool_state None [WDone] [2] true DDead)))
    as Hd.
  { intros [|w] pc; simpl; intros Hl; [by injection Hl|discriminate]. }
  assert (run (submit 0 ByCopy 9) (pool_state None [WDone] [2] true DDead) =
    Some (pool_state None [WDone] [2; 9] true DDead,
          [EvCall 0 9; EvPush 0 9])) as Hrun
    by (vm_compute; reflexivity).
  exact (X14_nothing_runs_after_workers_return _ _ _ _ Hd Hrun).
Defined.

Lemma X15_destructor_waits_for_ever_witness :
  [@WBlocked nat] !! 0 = Some WBlocked ∧ DJoin 0 ≠ DDead.
Proof.
  assert (run [StepW 0; StepW 0] (dispatch_queue "pool" 1 1) =
    Some (pool_state None [WBlocked] [] false DLive, [])) as Hrun
    by (vm_compute; reflexivity).
  assert (run [Destroy] (pool_state None [WBlocked] [] false DLive) =
    Some (pool_state None [WBlocked] [] true (DJoin 0), [EvQuit])) as Hrun'
    by (vm_compute; reflexivity).
  apply (X15_destructor_waits_for_ever _ _ _ _ _ _ 0 [Destroy]
           (pool_state None [WBlocked] [] true (DJoin 0)) [EvQuit] Hrun).
  - reflexivity.
  - repeat constructor.
  - exact Hrun'.
Defined.
